(** * File browser sorting extension: the comparator and the patched listing

    A shallow embedding of [src/index.ts] (and of the earlier revision of the
    same file, whose [sortItems] takes the two settings as arguments), with
    the properties its specification states about it.

    What belongs to the host (the JavaScript engine and JupyterLab) and not to
    the repository is kept apart:
    - [Date_getTime], [localeCompare] and the listing's own [sort] method
      ([originalSort]) are fields of the class [Host];
    - [Array_sort] is a model of [Array.prototype.sort]. ECMAScript fixes the
      result of [sort] only when the comparator is consistent on the array:
      then it is the sorted, stable rearrangement, which is unique
      ([conforming_sort_unique]), so that every engine returns what
      [Array_sort] returns. When the comparator is not consistent the order
      is left to the engine, and the engines differ; the model is then one
      engine among others, a bottom-up merge sort. Two more engines are
      kept beside it, binary insertion with and without run detection
      ([Array_sort_binary_insertion], the way V8 sorts a short array, and
      [Array_sort_insertion], the way JavaScriptCore does), to tell what
      holds of the code from what holds of one engine: where a statement
      depends on the order for such a comparator, the inputs are chosen
      so that the engines agree with the model.

    The plugin around [sortItems] is modelled at three levels: one patched
    listing with its closure ([Patched], and [ListingEvent] for what
    happens to it), the settings with the browsers' listings ([World]),
    and the listings as objects in a store, where the guard of
    [patchListing] matters ([Plugin]).  [Earlier] and [EarlierPatch] hold
    the earlier revision. *)

From Stdlib Require Import ZArith Sorting.Sorted.
From stdpp Require Import base tactics option list sorting strings gmap.

Local Open Scope Z_scope.

(** ** JavaScript numbers

    The numbers that reach the comparator are integers (priorities, code
    units, lengths, sizes, epoch milliseconds) or [NaN], the time value of an
    Invalid Date.  Only the sign of a comparison is read by [sort], and the
    difference of two integers held in doubles has the sign of their
    difference in [Z]. *)

Inductive number : Type :=
| Num (z : Z)
| NaN.

Global Instance number_eq_dec : EqDecision number.
Proof. solve_decision. Defined.

(** [x - y] *)
Definition num_sub (x y : number) : number :=
  match x, y with
  | Num a, Num b => Num (a - b)
  | _, _ => NaN
  end.

(** [x * y] *)
Definition num_mul (x y : number) : number :=
  match x, y with
  | Num a, Num b => Num (a * b)
  | _, _ => NaN
  end.

(** [x !== y]: [NaN] differs from every number, itself included. *)
Definition num_strict_neq (x y : number) : bool :=
  match x, y with
  | Num a, Num b => negb (a =? b)
  | _, _ => true
  end.

(** ** JavaScript strings

    A file name is a sequence of UTF-16 code units, which is what
    [charCodeAt] reads.  Strings that the code only tests for equality with a
    literal (the [type] of an entry, the sort [key]) or hands over to the host
    ([last_modified]) are kept as [string]. *)

Abbreviation jsstring := (list Z).

(** The code units of an ASCII literal. *)
Definition str (s : string) : jsstring :=
  (λ c, Z.of_N (Ascii.N_of_ascii c)) <$> String.list_ascii_of_string s.

(** [s.charCodeAt(i)]: [NaN] when [i] is out of range. *)
Definition charCodeAt (s : jsstring) (i : nat) : number :=
  match s !! i with
  | Some c => Num c
  | None => NaN
  end.

(** The [for] loop of [cLocaleCompare], started at index [i] with [n]
    iterations left; [None] when the loop ends without returning. *)
Fixpoint cLocaleCompare_loop (a b : jsstring) (i n : nat) : option number :=
  match n with
  | O => None
  | S n' =>
      let charCodeA := charCodeAt a i in
      let charCodeB := charCodeAt b i in
      if num_strict_neq charCodeA charCodeB
      then Some (num_sub charCodeA charCodeB)
      else cLocaleCompare_loop a b (S i) n'
  end.

Definition cLocaleCompare (a b : jsstring) : number :=
  let lenA := length a in
  let lenB := length b in
  let minLen := Nat.min lenA lenB in
  match cLocaleCompare_loop a b 0 minLen with
  | Some r => r
  | None => Num (Z.of_nat lenA - Z.of_nat lenB)
  end.

(** The same comparison by recursion on the two strings; [cLocaleCompare]
    is shown to compute it ([cLocaleCompare_units]). *)
Fixpoint compare_units (a b : jsstring) : Z :=
  match a, b with
  | [], _ => 0 - Z.of_nat (length b)
  | _ :: _, [] => Z.of_nat (length a)
  | x :: a', y :: b' => if x =? y then compare_units a' b' else x - y
  end.

(** ** Entries, sort state, settings *)

(** [Contents.IModel], the fields the comparator reads; [size] is absent
    ([null] or [undefined]) for [None]. *)
Record IModel : Type := {
  name : jsstring;
  type : string;
  last_modified : string;
  size : option Z
}.

Global Instance IModel_eq_dec : EqDecision IModel.
Proof. solve_decision. Defined.

Inductive Direction : Type :=
| ascending
| descending.

Global Instance Direction_eq_dec : EqDecision Direction.
Proof. solve_decision. Defined.

Record SortState : Type := {
  direction : Direction;
  key : string
}.

(** The two module-level settings, [let sortNotebooksFirst = false] and
    [let useCLocaleSorting = true], passed explicitly. *)
Record Settings : Type := {
  sortNotebooksFirst : bool;
  useCLocaleSorting : bool
}.

Definition default_settings : Settings :=
  {| sortNotebooksFirst := false; useCLocaleSorting := true |}.

(** [x ?? 0] *)
Definition nullish0 (x : option Z) : Z := default 0 x.

(** The host's [DirListing], the fields the patch touches: [model] is the
    snapshot [model.items()] yields ([None] for a missing model),
    [updates] counts the calls of [update()]. *)
Record DirListing : Type := {
  model : option (list IModel);
  _sortState : option SortState;
  _sortedItems : list IModel;
  updates : nat
}.

(** ** The host *)

Class Host : Type := {
  (** [new Date(s).getTime()]: epoch milliseconds, [NaN] for an Invalid Date *)
  Date_getTime : string → number;
  (** [a.localeCompare(b, undefined, { numeric: true, sensitivity: 'base' })] *)
  localeCompare : jsstring → jsstring → Z;
  (** [listing.sort.bind(listing)], the method the patch replaces *)
  originalSort : SortState → DirListing → DirListing
}.

Definition defaultLocaleCompare `{Host} (a b : jsstring) : number :=
  Num (localeCompare a b).

(** ** [Array.prototype.sort]

    The engine calls the comparator through [SortCompare], which reads a
    [NaN] result as [+0].  The model is a bottom-up merge sort: runs of
    width 1, 2, 4, ... are merged pairwise, the right run giving its head
    only when it compares below the head of the left run.  It stands for
    every engine where the comparator is consistent; where it is not, it
    is one possible order, and the engines below give others. *)

Section ArraySort.
Context {A : Type} (comparefn : A → A → number).

Definition SortCompare (x y : A) : Z :=
  match comparefn x y with
  | NaN => 0
  | Num v => v
  end.

Fixpoint merge_runs (left right : list A) : list A :=
  match left with
  | [] => right
  | x :: left' =>
      (fix from_right (right : list A) : list A :=
         match right with
         | [] => left
         | y :: right' =>
             if SortCompare y x <? 0
             then y :: from_right right'
             else x :: merge_runs left' right
         end) right
  end.

(** One pass: runs 0 and 1 are merged, runs 2 and 3, ...; a last run
    without a partner is kept. *)
Fixpoint merge_pairs (runs : list (list A)) : list (list A) :=
  match runs with
  | a :: b :: rest => merge_runs a b :: merge_pairs rest
  | _ => runs
  end.

(** The passes [width = 1; width < length; width *= 2]. *)
Definition Array_sort (items : list A) : list A :=
  concat (Nat.iter (Nat.log2_up (length items)) merge_pairs ((λ x, [x]) <$> items)).

End ArraySort.

(** ** Two more engines

    How a TimSort (V8) sorts an array shorter than its minimal run: the
    ascending or strictly descending run at the start is found (and
    reversed when descending), then every later element is inserted at the
    place a binary search gives.  Without the run detection, every element
    from the second on being inserted into the sorted prefix, this is how
    JavaScriptCore sorts a short array.  They are used for comparison
    only: on a consistent comparator they return what [Array_sort]
    returns, on others they need not. *)

Section BinaryInsertion.
Context {A : Type} (comparefn : A → A → number).

(** The longest run continuing [prev], and what follows it. *)
Fixpoint take_run (descending : bool) (prev : A) (l : list A) : list A * list A :=
  match l with
  | [] => ([], [])
  | cur :: l' =>
      let order := SortCompare comparefn cur prev in
      if (if descending then 0 <=? order else order <? 0) then ([], l)
      else let '(run, rest) := take_run descending cur l' in (cur :: run, rest)
  end.

Definition count_and_make_run (l : list A) : list A * list A :=
  match l with
  | x :: y :: l' =>
      let descending := SortCompare comparefn y x <? 0 in
      let '(run, rest) := take_run descending y l' in
      (if descending then list.reverse (x :: y :: run) else x :: y :: run, rest)
  | _ => (l, [])
  end.

(** The binary search of the insertion point in the window [a]:
    [mid = left + ((right - left) >> 1)], go left when the pivot compares
    below the middle element. *)
Fixpoint insertion_point (fuel : nat) (pivot : A) (a : list A) : nat :=
  match fuel with
  | O => O
  | S fuel' =>
      let mid := (length a / 2)%nat in
      match a !! mid with
      | None => O
      | Some m =>
          if SortCompare comparefn pivot m <? 0
          then insertion_point fuel' pivot (take mid a)
          else (S mid + insertion_point fuel' pivot (drop (S mid) a))%nat
      end
  end.

Definition binary_insert (a : list A) (pivot : A) : list A :=
  let p := insertion_point (length a) pivot a in
  take p a ++ pivot :: drop p a.

Definition Array_sort_binary_insertion (items : list A) : list A :=
  let '(run, rest) := count_and_make_run items in
  foldl binary_insert run rest.

(** [for (i = 1; i < length; ++i)]: insert [array[i]] into [array[0..i)]. *)
Definition Array_sort_insertion (items : list A) : list A :=
  foldl binary_insert [] items.

End BinaryInsertion.

(** ** [sortItems] *)

Section SortItems.
Context `{Host}.

Definition getPriority (cfg : Settings) (item : IModel) : Z :=
  if String.eqb (type item) "directory" then 0
  else if sortNotebooksFirst cfg && String.eqb (type item) "notebook" then 1
  else 2.

Definition compareByName (cfg : Settings) (a b : IModel) : number :=
  if useCLocaleSorting cfg
  then cLocaleCompare (name a) (name b)
  else defaultLocaleCompare (name a) (name b).

(** [state.direction === 'descending' ? -1 : 1] *)
Definition reverse (state : SortState) : Z :=
  match direction state with
  | descending => -1
  | ascending => 1
  end.

(** The key comparison, before the direction is applied. *)
Definition key_compare (cfg : Settings) (state : SortState) (a b : IModel) : number :=
  if String.eqb (key state) "last_modified" then
    num_sub (Date_getTime (last_modified a)) (Date_getTime (last_modified b))
  else if String.eqb (key state) "file_size" then
    Num (nullish0 (size b) - nullish0 (size a))
  else
    compareByName cfg a b.

(** The arrow function handed to [copy.sort]. *)
Definition comparator (cfg : Settings) (state : SortState) (a b : IModel) : number :=
  let priorityA := getPriority cfg a in
  let priorityB := getPriority cfg b in
  if negb (priorityA =? priorityB) then Num (priorityA - priorityB)
  else
    let result := key_compare cfg state a b in
    num_mul result (Num (reverse state)).

(** The value [sortItems] returns: a sorted copy of [items]. *)
Definition sortItems (cfg : Settings) (items : list IModel) (state : SortState)
  : list IModel :=
  let copy := items in
  Array_sort (comparator cfg state) copy.

End SortItems.

(** ** The earlier revision of [sortItems]

    [sortItems(items, state, sortNotebooksFirst, useCLocale)] takes the two
    settings as arguments and wraps one key comparator per branch with
    [compare]. *)

Module Earlier.
Section SortItems.
Context `{Host}.
Variable state : SortState.
Variable sortNotebooksFirst useCLocale : bool.

Definition getPriority (item : IModel) : Z :=
  if String.eqb (type item) "directory" then 0
  else if sortNotebooksFirst && String.eqb (type item) "notebook" then 1
  else 2.

Definition compareByName (a b : IModel) : number :=
  if useCLocale then cLocaleCompare (name a) (name b)
  else defaultLocaleCompare (name a) (name b).

Definition compare (comparator : IModel → IModel → number) (a b : IModel) : number :=
  let priorityA := getPriority a in
  let priorityB := getPriority b in
  if negb (priorityA =? priorityB) then Num (priorityA - priorityB)
  else
    let result := comparator a b in
    num_mul result (Num (reverse state)).

Definition sortItems (items : list IModel) : list IModel :=
  let copy := items in
  if String.eqb (key state) "last_modified" then
    Array_sort
      (compare (λ a b,
         num_sub (Date_getTime (last_modified a)) (Date_getTime (last_modified b))))
      copy
  else if String.eqb (key state) "file_size" then
    Array_sort (compare (λ a b, Num (nullish0 (size b) - nullish0 (size a)))) copy
  else
    Array_sort (compare compareByName) copy.

End SortItems.
End Earlier.

(** ** Arrays by reference

    [sortItems] copies its argument and sorts the copy in place.  Arrays
    live in a store; a computation threads the store and fails on a
    reference that is not allocated. *)

Definition ref : Type := positive.

Definition Mem (X : Type) : Type :=
  gmap ref (list IModel) → option (X * gmap ref (list IModel)).

Global Instance Mem_ret : MRet Mem := λ X x σ, Some (x, σ).

Global Instance Mem_bind : MBind Mem := λ X Y f m σ,
  match m σ with
  | Some (x, σ') => f x σ'
  | None => None
  end.

(** [[...items]]: a new array with the elements of [items]. *)
Definition array_spread (items : ref) : Mem ref := λ σ,
  match σ !! items with
  | Some l => let copy := fresh (dom σ) in Some (copy, <[copy := l]> σ)
  | None => None
  end.

(** [arr.sort(comparefn)]: sorts [arr] in place and returns it. *)
Definition array_sort_in_place (comparefn : IModel → IModel → number) (arr : ref)
  : Mem ref := λ σ,
  match σ !! arr with
  | Some l => Some (arr, <[arr := Array_sort comparefn l]> σ)
  | None => None
  end.

Definition sortItems_mem `{Host} (cfg : Settings) (items : ref) (state : SortState)
  : Mem ref :=
  copy ← array_spread items;
  _ ← array_sort_in_place (comparator cfg state) copy;
  mret copy.

(** ** The patched listing

    [patchListing] gives a listing a closure variable [customSortedItems],
    a [sortedItems] getter that returns it, and a new [sort] method.
    [engine_calls] is ghost state: the arguments of every call of
    [sortItems] made on behalf of the listing, oldest first. *)

Record Patched : Type := {
  listing : DirListing;
  customSortedItems : list IModel;
  engine_calls : list (list IModel * SortState)
}.

(** The host's [sortState] getter. *)
Definition sortState (l : DirListing) : option SortState := _sortState l.

(** The overriding getter. *)
Definition sortedItems (p : Patched) : list IModel := customSortedItems p.

Definition set_sortState (state : SortState) (l : DirListing) : DirListing :=
  {| model := model l; _sortState := Some state;
     _sortedItems := _sortedItems l; updates := updates l |}.

Definition set_sortedItems (items : list IModel) (l : DirListing) : DirListing :=
  {| model := model l; _sortState := _sortState l;
     _sortedItems := items; updates := updates l |}.

(** [this.update()] *)
Definition update (l : DirListing) : DirListing :=
  {| model := model l; _sortState := _sortState l;
     _sortedItems := _sortedItems l; updates := S (updates l) |}.

Section Patch.
Context `{Host}.

(** [listing.sort = function (state) { ... }] *)
Definition patched_sort (cfg : Settings) (state : SortState) (p : Patched) : Patched :=
  match model (listing p) with
  | None =>
      {| listing := originalSort state (listing p);
         customSortedItems := customSortedItems p;
         engine_calls := engine_calls p |}
  | Some itemsArray =>
      if (length itemsArray =? 0)%nat then
        {| listing := originalSort state (set_sortedItems [] (set_sortState state (listing p)));
           customSortedItems := [];
           engine_calls := engine_calls p |}
      else
        let sorted := sortItems cfg itemsArray state in
        {| listing := update (set_sortState state (set_sortedItems sorted (listing p)));
           customSortedItems := sorted;
           engine_calls := engine_calls p ++ [(itemsArray, state)] |}
  end.

(** [resortListing]; the handler connected to [model.refreshed] has the
    same body. *)
Definition resortListing (cfg : Settings) (p : Patched) : Patched :=
  match sortState (listing p) with
  | None => p
  | Some state => patched_sort cfg state p
  end.

Definition on_refreshed (cfg : Settings) (p : Patched) : Patched :=
  match sortState (listing p) with
  | Some state => patched_sort cfg state p
  | None => p
  end.

(** [patchListing]: the closure variable starts empty, and the listing is
    sorted at once when it has a sort state. *)
Definition patchListing (cfg : Settings) (l : DirListing) : Patched :=
  let p := {| listing := l; customSortedItems := []; engine_calls := [] |} in
  match sortState l with
  | Some state => patched_sort cfg state p
  | None => p
  end.

(** The settings together with the listings of the tracked browsers. *)
Record World : Type := {
  settings : Settings;
  browsers : list Patched
}.

Definition resortAllBrowsers (w : World) : World :=
  {| settings := settings w;
     browsers := resortListing (settings w) <$> browsers w |}.

(** [useCLocaleSorting = !useCLocaleSorting] *)
Definition toggle_useCLocaleSorting (cfg : Settings) : Settings :=
  {| sortNotebooksFirst := sortNotebooksFirst cfg;
     useCLocaleSorting := negb (useCLocaleSorting cfg) |}.

(** The handlers of [settings.changed]; [composite] is the value read from
    the registry, [None] when it is missing. *)
Definition on_sortNotebooksFirst_changed (composite : option bool) (w : World) : World :=
  {| settings := {| sortNotebooksFirst := default false composite;
                    useCLocaleSorting := useCLocaleSorting (settings w) |};
     browsers := browsers w |}.

Definition on_useCLocaleSorting_changed (composite : option bool) (w : World) : World :=
  resortAllBrowsers
    {| settings := {| sortNotebooksFirst := sortNotebooksFirst (settings w);
                      useCLocaleSorting := default true composite |};
       browsers := browsers w |}.

(** The file browser's own toggle of "notebooks first": it writes the
    negated flag to the shared settings, and the handler above reads it. *)
Definition toggle_sortNotebooksFirst (w : World) : World :=
  on_sortNotebooksFirst_changed (Some (negb (sortNotebooksFirst (settings w)))) w.

(** [execute] of the toggle command: with a setting registry the negated
    flag is written there and comes back through the handler; without one
    it is assigned and the browsers are sorted again. *)
Definition execute_toggle (registry : bool) (w : World) : World :=
  if registry then
    on_useCLocaleSorting_changed (Some (negb (useCLocaleSorting (settings w)))) w
  else
    resortAllBrowsers
      {| settings := toggle_useCLocaleSorting (settings w); browsers := browsers w |}.

End Patch.

(** ** Events of a patched listing

    What happens to a listing once it is patched: the host calls [sort] (a
    click on a column header), the model signals [refreshed], the plugin
    sorts the listing again ([resortListing]), or the host replaces the
    items of the model.  The [refreshed] handler is connected when the
    listing has a model at the time of the patch; the runs below allow a
    refresh at any time, which covers both cases. *)

Definition set_model (m : option (list IModel)) (l : DirListing) : DirListing :=
  {| model := m; _sortState := _sortState l;
     _sortedItems := _sortedItems l; updates := updates l |}.

Inductive ListingEvent : Type :=
| CallSort (state : SortState)
| ModelRefreshed
| Resorted
| ModelChanged (m : option (list IModel)).

Section Events.
Context `{Host}.

Definition handle (cfg : Settings) (p : Patched) (e : ListingEvent) : Patched :=
  match e with
  | CallSort state => patched_sort cfg state p
  | ModelRefreshed => on_refreshed cfg p
  | Resorted => resortListing cfg p
  | ModelChanged m =>
      {| listing := set_model m (listing p);
         customSortedItems := customSortedItems p;
         engine_calls := engine_calls p |}
  end.

Definition run (cfg : Settings) (p : Patched) (es : list ListingEvent) : Patched :=
  foldl (handle cfg) p es.

End Events.

(** ** Listings by reference

    A listing is an object, and [patchListing] is guarded by the set
    [patchedListings] of the objects it has patched.  The objects live in a
    store; an object carries the patch or does not, so that
    [patchedListings.has(listing)] is read off the object and
    [patchedListings.add(listing)] is the step from [Unpatched] to
    [WithPatch].  A browser is its [listing] property, [None] when it has
    none. *)

Module Plugin.

Inductive ListingObject : Type :=
| Unpatched (l : DirListing)
| WithPatch (p : Patched).

Definition fields (o : ListingObject) : DirListing :=
  match o with
  | Unpatched l => l
  | WithPatch p => listing p
  end.

Definition has_patch (o : ListingObject) : bool :=
  match o with
  | Unpatched _ => false
  | WithPatch _ => true
  end.

Definition patchedListings (σ : gmap ref ListingObject) : gset ref :=
  dom (filter (λ ro, has_patch ro.2 = true) σ).

Section Plugin.
Context `{Host}.

(** [listing.sort(state)]: the host's method, or the one the patch has put
    in its place. *)
Definition sort (cfg : Settings) (state : SortState) (o : ListingObject) : ListingObject :=
  match o with
  | Unpatched l => Unpatched (originalSort state l)
  | WithPatch p => WithPatch (patched_sort cfg state p)
  end.

(** [if (!listing || !listing.sortState) return; listing.sort(listing.sortState)] *)
Definition resortListing (cfg : Settings) (listing : option ref)
    (σ : gmap ref ListingObject) : gmap ref ListingObject :=
  match listing with
  | None => σ
  | Some r =>
      match σ !! r with
      | None => σ
      | Some o =>
          match sortState (fields o) with
          | None => σ
          | Some state => <[r := sort cfg state o]> σ
          end
      end
  end.

(** [tracker.forEach(browser => resortListing(browser.listing))] *)
Definition resortAllBrowsers (cfg : Settings) (tracker : list (option ref))
    (σ : gmap ref ListingObject) : gmap ref ListingObject :=
  foldl (λ σ browser, resortListing cfg browser σ) σ tracker.

(** [if (!listing || patchedListings.has(listing)) return;] and then the
    patch, which is [patchListing] above. *)
Definition patchListing (cfg : Settings) (listing : option ref)
    (σ : gmap ref ListingObject) : gmap ref ListingObject :=
  match listing with
  | None => σ
  | Some r =>
      match σ !! r with
      | Some (Unpatched l) => <[r := WithPatch (patchListing cfg l)]> σ
      | Some (WithPatch _) => σ
      | None => σ
      end
  end.

(** [const listing = browser.listing; if (listing) patchListing(listing)] *)
Definition patchFileBrowser (cfg : Settings) (browser : option ref)
    (σ : gmap ref ListingObject) : gmap ref ListingObject :=
  match browser with
  | Some listing => patchListing cfg (Some listing) σ
  | None => σ
  end.

(** The callback of [app.restored]: [tracker.forEach(patchFileBrowser)]. *)
Definition restored (cfg : Settings) (tracker : list (option ref))
    (σ : gmap ref ListingObject) : gmap ref ListingObject :=
  foldl (λ σ browser, patchFileBrowser cfg browser σ) σ tracker.

End Plugin.
End Plugin.

(** ** The patch of the earlier revision

    The earlier revision replaces [sort] only: there is no [sortedItems]
    getter, no call of the host's own [sort], and no test for an empty
    model.  Both settings handlers sort the browsers again, and the toggle
    command does nothing without a setting registry. *)

Module EarlierPatch.

(** The two flags of [activate] and the listings of [patchedBrowsers], the
    browsers the patch was applied to; a browser is its [_listing]. *)
Record World : Type := {
  settings : Settings;
  patchedBrowsers : list (option DirListing)
}.

Section EarlierPatch.
Context `{Host}.

(** [listing.sort = function (state) { ... }] *)
Definition sort (cfg : Settings) (state : SortState) (l : DirListing) : DirListing :=
  match model l with
  | None => l
  | Some items =>
      let sorted :=
        Earlier.sortItems state (sortNotebooksFirst cfg) (useCLocaleSorting cfg) items in
      update (set_sortState state (set_sortedItems sorted l))
  end.

Definition resortAllBrowsers (w : World) : World :=
  {| settings := settings w;
     patchedBrowsers :=
       (λ browser,
          match browser with
          | Some listing =>
              match sortState listing with
              | Some currentState => Some (sort (settings w) currentState listing)
              | None => Some listing
              end
          | None => None
          end) <$> patchedBrowsers w |}.

Definition updateSortNotebooksFirst (composite : option bool) (w : World) : World :=
  resortAllBrowsers
    {| settings := {| sortNotebooksFirst := default false composite;
                      useCLocaleSorting := useCLocaleSorting (settings w) |};
       patchedBrowsers := patchedBrowsers w |}.

Definition updateUseCLocaleSorting (composite : option bool) (w : World) : World :=
  resortAllBrowsers
    {| settings := {| sortNotebooksFirst := sortNotebooksFirst (settings w);
                      useCLocaleSorting := default true composite |};
       patchedBrowsers := patchedBrowsers w |}.

(** [execute] of the toggle command: the negated flag is written to the
    registry and comes back through [updateUseCLocaleSorting]; there is no
    [else]. *)
Definition execute (registry : bool) (w : World) : World :=
  if registry then
    updateUseCLocaleSorting (Some (negb (useCLocaleSorting (settings w)))) w
  else w.

End EarlierPatch.
End EarlierPatch.

(** ** Notions the statements use *)

(** A comparison is consistent on the elements that satisfy [D] when its
    sign is that of a total preorder. *)
Record consistent_on {A : Type} (D : A → Prop) (k : A → A → Z) : Prop := {
  consistent_antisym : ∀ a b, D a → D b → Z.sgn (k b a) = - Z.sgn (k a b);
  consistent_trans : ∀ a b c, D a → D b → D c → k a b <= 0 → k b c <= 0 → k a c <= 0
}.

(** What ECMAScript and ICU promise of [localeCompare]: it compares by
    collation keys. *)
Definition consistent_collator (lc : jsstring → jsstring → Z) : Prop :=
  consistent_on (λ _, True) lc.

(** No later element compares below an earlier one. *)
Definition sorted_by {A : Type} (comparefn : A → A → number) (l : list A) : Prop :=
  StronglySorted (λ a b, SortCompare comparefn a b <= 0) l.


(** The occurrences of [a] and [b] come in the same order in [l] and [l']. *)
Definition same_relative_order {A : Type} `{EqDecision A} (a b : A) (l l' : list A) : Prop :=
  filter (λ x, x = a ∨ x = b) l' = filter (λ x, x = a ∨ x = b) l.

(** The elements that compare equal to [x] come in the same order. *)
Definition same_class_order {A : Type} (comparefn : A → A → number) (x : A)
    (l l' : list A) : Prop :=
  filter (λ y, SortCompare comparefn x y = 0) l' = filter (λ y, SortCompare comparefn x y = 0) l.

(** The timestamps the comparator reads all parse. *)
Definition dated `{Host} (state : SortState) (e : IModel) : Prop :=
  key state = "last_modified"%string → Date_getTime (last_modified e) ≠ NaN.


(** ** Code points

    The code points of a string as its iterator yields them: a lead
    surrogate followed by a trail surrogate is one code point, every other
    code unit is a code point by itself. *)
Fixpoint code_points (s : jsstring) : list Z :=
  match s with
  | [] => []
  | hi :: rest =>
      match rest with
      | lo :: rest' =>
          if (55296 <=? hi) && (hi <=? 56319) && (56320 <=? lo) && (lo <=? 57343)
          then (65536 + (hi - 55296) * 1024 + (lo - 56320)) :: code_points rest'
          else hi :: code_points rest
      | [] => [hi]
      end
  end.

Definition no_surrogates (s : jsstring) : Prop :=
  Forall (λ c, ¬ (55296 <= c <= 57343)) s.

(** ** The classes of ASCII characters

    The classes the doc comment of [cLocaleCompare] names, numbered in the
    order it gives: [.], [0-9], [A-Z], [_], [a-z]. *)
Definition char_class (c : Z) : option Z :=
  if c =? 46 then Some 0
  else if (48 <=? c) && (c <=? 57) then Some 1
  else if (65 <=? c) && (c <=? 90) then Some 2
  else if c =? 95 then Some 3
  else if (97 <=? c) && (c <=? 122) then Some 4
  else None.

(** ** The comparator as an integer

    On entries whose timestamps parse, the key comparison is an integer. *)

Definition time_of `{Host} (e : IModel) : Z :=
  match Date_getTime (last_modified e) with
  | Num t => t
  | NaN => 0
  end.

Definition key_compare_Z `{Host} (cfg : Settings) (state : SortState) (a b : IModel) : Z :=
  if String.eqb (key state) "last_modified" then time_of a - time_of b
  else if String.eqb (key state) "file_size" then nullish0 (size b) - nullish0 (size a)
  else if useCLocaleSorting cfg then compare_units (name a) (name b)
  else localeCompare (name a) (name b).

(** ** The claims about order, as predicates *)

(** [cmpf] orders two strings by the first position at which their
    [view]s differ. *)
Definition orders_by_first_difference (view : jsstring → list Z)
    (cmpf : jsstring → jsstring → number) : Prop :=
  ∀ a b i x y,
    take i (view a) = take i (view b) →
    view a !! i = Some x → view b !! i = Some y → x ≠ y →
    ∃ r, cmpf a b = Num r ∧ Z.sgn r = Z.sgn (x - y).

(** Two entries of [items] for which the comparator returns 0 keep their
    relative order. *)
Definition stable_on `{Host} (cfg : Settings) (state : SortState) (items : list IModel) : Prop :=
  ∀ a b, a ∈ items → b ∈ items →
    comparator cfg state a b = Num 0 →
    same_relative_order a b items (sortItems cfg items state).

(** Sorting the output again moves nothing. *)
Definition idempotent_on `{Host} (cfg : Settings) (state : SortState) (items : list IModel) : Prop :=
  sortItems cfg (sortItems cfg items state) state = sortItems cfg items state.

(** What a run of events keeps: [sortItems] was never called on an empty
    array, and the getter returns nothing or what its last call returned. *)
Definition shows_engine_output `{Host} (cfg : Settings) (p : Patched) : Prop :=
  Forall (λ call, call.1 ≠ []) (engine_calls p) ∧
  (sortedItems p = [] ∨
   ∃ items state, last (engine_calls p) = Some (items, state) ∧
                  sortedItems p = sortItems cfg items state).

(** ** Sample data

    A host for the examples: dates read from a table of ISO strings (every
    other string, the empty one included, is an Invalid Date), an ASCII
    case-folding comparison in place of the ICU collation, and a listing
    whose own [sort] records the state and asks for an update. *)

Definition table_getTime (s : string) : number :=
  if String.eqb s "1970-01-01T00:00:00.001Z" then Num 1
  else if String.eqb s "1970-01-01T00:00:00.002Z" then Num 2
  else if String.eqb s "1970-01-01T00:00:00.003Z" then Num 3
  else NaN.

Definition fold_case (c : Z) : Z :=
  if (65 <=? c) && (c <=? 90) then c + 32 else c.

Definition folded_compare (a b : jsstring) : Z :=
  compare_units (fold_case <$> a) (fold_case <$> b).

Definition example_host : Host :=
  {| Date_getTime := table_getTime;
     localeCompare := folded_compare;
     originalSort := λ state l, update (set_sortState state l) |}.

Definition entry (n ty stamp : string) (sz : option Z) : IModel :=
  {| name := str n; type := ty; last_modified := stamp; size := sz |}.

Definition by_name : SortState := {| direction := ascending; key := "name" |}.
Definition by_date : SortState := {| direction := ascending; key := "last_modified" |}.
Definition by_size : SortState := {| direction := ascending; key := "file_size" |}.

Definition ten_names : list jsstring :=
  str <$> [".hidden"; ".profile"; "123file"; "ABC"; "Makefile"; "README";
           "_config"; "abc"; "readme"; "zebra"]%string.

(** The ten entries, in the reverse of the expected order. *)
Definition ten_files : list IModel :=
  (λ n, entry n "file" "1970-01-01T00:00:00.001Z" None) <$>
  ["zebra"; "readme"; "abc"; "_config"; "README"; "Makefile"; "ABC"; "123file";
   ".profile"; ".hidden"]%string.

(** U+FF5E, and U+20BB7 as its surrogate pair D842 DFB7. *)
Definition fullwidth_tilde : jsstring := [65374].
Definition astral_ideograph : jsstring := [55362; 57271].

(** Five files, two of which have a [last_modified] that does not parse. *)
Definition undated_a : IModel := entry "a" "file" "" None.
Definition dated_b : IModel := entry "b" "file" "1970-01-01T00:00:00.002Z" None.
Definition undated_c : IModel := entry "c" "file" "" None.
Definition dated_d : IModel := entry "d" "file" "1970-01-01T00:00:00.001Z" None.
Definition dated_e : IModel := entry "e" "file" "1970-01-01T00:00:00.001Z" None.

Definition partly_dated : list IModel :=
  [undated_a; dated_b; undated_c; dated_d; dated_e].

(** Nine files: seven modified at the same instant, one modified later,
    and one whose [last_modified] does not parse. *)
Definition early (n : string) : IModel := entry n "file" "1970-01-01T00:00:00.001Z" None.
Definition late (n : string) : IModel := entry n "file" "1970-01-01T00:00:00.002Z" None.
Definition undated (n : string) : IModel := entry n "file" "" None.

Definition nine_files : list IModel :=
  [early "a"; early "b"; early "c"; late "d"; early "e"; undated "f";
   early "g"; early "h"; early "i"].

(** Nine files again, two of which have a [last_modified] that does not
    parse. *)
Definition latest (n : string) : IModel := entry n "file" "1970-01-01T00:00:00.003Z" None.

Definition nine_files_two_undated : list IModel :=
  [early "a"; early "b"; early "c"; latest "d"; early "e"; undated "f";
   undated "g"; early "h"; late "i"].

(** A directory listing with a directory, notebooks and files; the two
    files tie under every key (in locale mode for the key [name]). *)
Definition mixed_listing : list IModel :=
  [ entry "notes.txt" "file" "1970-01-01T00:00:00.003Z" (Some 10);
    entry "b.ipynb" "notebook" "1970-01-01T00:00:00.001Z" (Some 300);
    entry "src" "directory" "1970-01-01T00:00:00.002Z" None;
    entry "Notes.txt" "file" "1970-01-01T00:00:00.003Z" (Some 10);
    entry "a.ipynb" "notebook" "1970-01-01T00:00:00.002Z" (Some 20) ].

Definition notebooks_first : Settings :=
  {| sortNotebooksFirst := true; useCLocaleSorting := false |}.

(** A patched listing that was showing five entries and whose model has
    been emptied. *)
Definition emptied_listing : Patched :=
  {| listing := {| model := Some []; _sortState := Some by_name;
                   _sortedItems := mixed_listing; updates := 3 |};
     customSortedItems := mixed_listing;
     engine_calls := [(mixed_listing, by_name)] |}.

Definition one_array : gmap ref (list IModel) := {[ 1%positive := mixed_listing ]}.

(** Two notebooks of [mixed_listing]. *)
Definition older_notebook : IModel :=
  entry "b.ipynb" "notebook" "1970-01-01T00:00:00.001Z" (Some 300).
Definition newer_notebook : IModel :=
  entry "a.ipynb" "notebook" "1970-01-01T00:00:00.002Z" (Some 20).

(** A listing that holds [partly_dated] and has not been sorted, and the
    same listing sorted by name by the host. *)
Definition unsorted_listing : DirListing :=
  {| model := Some partly_dated; _sortState := None; _sortedItems := []; updates := 0 |}.

Definition host_sorted_listing : DirListing :=
  {| model := Some mixed_listing; _sortState := Some by_name;
     _sortedItems := mixed_listing; updates := 1 |}.

Definition unsorted_patch : Patched :=
  {| listing := unsorted_listing; customSortedItems := []; engine_calls := [] |}.

(** Every type that is not [directory] read as [file]. *)
Definition as_file (e : IModel) : IModel :=
  {| name := name e;
     type := if String.eqb (type e) "directory" then "directory" else "file";
     last_modified := last_modified e;
     size := size e |}.

(** A world with two browsers, and a store with three listings of which
    two belong to tracked browsers. *)
Definition two_browsers : World :=
  {| settings := default_settings;
     browsers := [patchListing (H := example_host) default_settings host_sorted_listing;
                  unsorted_patch] |}.

Definition three_listings : gmap ref Plugin.ListingObject :=
  {[ 1%positive := Plugin.Unpatched host_sorted_listing;
     2%positive := Plugin.Unpatched unsorted_listing;
     3%positive := Plugin.Unpatched host_sorted_listing ]}.

Definition earlier_world : EarlierPatch.World :=
  {| EarlierPatch.settings := default_settings;
     EarlierPatch.patchedBrowsers := [Some host_sorted_listing; Some unsorted_listing] |}.

(** * Properties *)

(** ** The merge sort, for any comparator *)

Section ArraySortFacts.
Context {A : Type} (comparefn : A → A → number).

Local Abbreviation cmp := (SortCompare comparefn).

Lemma pairs_ind {X : Type} (P : list X → Prop) :
  P [] → (∀ a, P [a]) → (∀ a b rest, P rest → P (a :: b :: rest)) → ∀ l, P l.
Proof.
  intros Hnil Hone Hstep l.
  enough (P l ∧ ∀ a, P (a :: l)) by tauto.
  induction l as [|b l [IH1 IH2]]; split; auto.
Qed.

Lemma merge_runs_nil_r (l : list A) : merge_runs comparefn l [] = l.
Proof. by destruct l. Qed.

Lemma merge_runs_cons (x y : A) (l r : list A) :
  merge_runs comparefn (x :: l) (y :: r) =
  if cmp y x <? 0 then y :: merge_runs comparefn (x :: l) r else x :: merge_runs comparefn l (y :: r).
Proof. done. Qed.

Lemma merge_runs_perm (l r : list A) : merge_runs comparefn l r ≡ₚ l ++ r.
Proof.
  revert r. induction l as [|x l IHl]; intros r; [done|].
  induction r as [|y r IHr].
  - by rewrite merge_runs_nil_r, app_nil_r.
  - rewrite merge_runs_cons. destruct (cmp y x <? 0).
    + rewrite IHr. by rewrite (Permutation_middle (x :: l) r y).
    + by rewrite IHl.
Qed.

Lemma merge_pairs_perm (runs : list (list A)) : concat (merge_pairs comparefn runs) ≡ₚ concat runs.
Proof.
  induction runs as [|a|a b rest IH] using pairs_ind; [done..|].
  simpl. rewrite merge_runs_perm, IH. by rewrite (assoc_L (++)).
Qed.

Lemma iter_pairs_perm (n : nat) (runs : list (list A)) :
  concat (Nat.iter n (merge_pairs comparefn) runs) ≡ₚ concat runs.
Proof.
  induction n as [|n IH]; [done|]. simpl. by rewrite merge_pairs_perm.
Qed.

Lemma concat_singletons (l : list A) : concat ((λ x, [x]) <$> l) = l.
Proof. induction l as [|x l IH]; [done|]. simpl. by f_equal. Qed.

Lemma Array_sort_perm (l : list A) : Array_sort comparefn l ≡ₚ l.
Proof.
  unfold Array_sort. rewrite iter_pairs_perm. by rewrite concat_singletons.
Qed.

(** After enough passes one run is left. *)
Lemma merge_pairs_length (runs : list (list A)) (k : nat) :
  (length runs <= 2 * k)%nat → (length (merge_pairs comparefn runs) <= k)%nat.
Proof.
  revert k. induction runs as [|a|a b rest IH] using pairs_ind; intros k Hk; simpl in *; [lia..|].
  destruct k as [|k]; [lia|]. specialize (IH k). lia.
Qed.

Lemma iter_pairs_length (n : nat) (runs : list (list A)) :
  (length runs <= 2 ^ n)%nat → (length (Nat.iter n (merge_pairs comparefn) runs) <= 1)%nat.
Proof.
  revert runs. induction n as [|n IH]; intros runs Hn; [done|].
  rewrite Nat.iter_succ_r. apply IH. apply merge_pairs_length.
  rewrite Nat.pow_succ_r' in Hn. lia.
Qed.

Lemma length_log2_up (n : nat) : (n <= 2 ^ Nat.log2_up n)%nat.
Proof.
  destruct (decide (n <= 1)%nat) as [Hle|Hgt].
  - assert (1 <= 2 ^ Nat.log2_up n)%nat; [|lia].
    apply (Nat.pow_le_mono_r 2 0); lia.
  - apply Nat.log2_up_spec. lia.
Qed.

(** A property of runs that merging keeps holds of the sorted array. *)
Lemma Array_sort_run_invariant (P : list A → Prop) (l : list A) :
  P [] →
  (∀ x, P [x]) →
  (∀ a b, P a → P b → P (merge_runs comparefn a b)) →
  P (Array_sort comparefn l).
Proof.
  intros Hnil Hone Hmerge. unfold Array_sort.
  assert (Hpass : ∀ runs, Forall P runs → Forall P (merge_pairs comparefn runs)).
  { induction runs as [|a|a b rest IH] using pairs_ind; intros Hruns; [done..|].
    simpl. apply Forall_cons in Hruns as [Ha Hruns]. apply Forall_cons in Hruns as [Hb Hruns].
    apply Forall_cons. split; [by apply Hmerge|]. by apply IH. }
  assert (Hiter : ∀ n runs, Forall P runs → Forall P (Nat.iter n (merge_pairs comparefn) runs)).
  { induction n as [|n IH]; intros runs Hruns; [done|]. simpl. by apply Hpass, IH. }
  set (runs := (λ x, [x]) <$> l).
  assert (Hall : Forall P runs).
  { subst runs. apply Forall_fmap, Forall_forall. intros x _. apply Hone. }
  specialize (Hiter (Nat.log2_up (length l)) runs Hall).
  assert (Hlen : (length (Nat.iter (Nat.log2_up (length l)) (merge_pairs comparefn) runs) <= 1)%nat).
  { apply iter_pairs_length. subst runs. rewrite length_fmap. apply length_log2_up. }
  destruct (Nat.iter (Nat.log2_up (length l)) (merge_pairs comparefn) runs) as [|r [|r' rs]]; simpl in *.
  - done.
  - rewrite app_nil_r. by apply Forall_cons in Hiter as [? _].
  - lia.
Qed.

End ArraySortFacts.

Lemma filter_none {A : Type} (P : A → Prop) `{∀ x, Decision (P x)} (l : list A) :
  Forall (λ x, ¬ P x) l → filter P l = [].
Proof.
  induction 1 as [|x l Hx _ IH]; [done|]. by rewrite filter_cons_False.
Qed.

Lemma StronglySorted_lookup {A : Type} (R : A → A → Prop) (l : list A) (i j : nat) (a b : A) :
  StronglySorted R l → l !! i = Some a → l !! j = Some b → (i < j)%nat → R a b.
Proof.
  intros Hs. revert i j. induction Hs as [|x l Hs IH Hx]; intros i j Hi Hj Hij; [done|].
  destruct j as [|j]; [lia|]. destruct i as [|i]; simpl in *.
  - simplify_eq. eapply Forall_forall; [exact Hx|]. by eapply list_elem_of_lookup_2.
  - eapply IH; eauto. lia.
Qed.

(** ** The merge sort, for a comparator that respects a ranking

    When a lower rank always compares below a higher one, merging keeps
    runs ordered by rank, whatever the comparator does inside a rank. *)

Section Ranked.
Context {A : Type} (comparefn : A → A → number) (rank : A → Z).
Hypothesis rank_decides :
  ∀ a b, rank a < rank b → SortCompare comparefn a b < 0 ∧ 0 <= SortCompare comparefn b a.

Definition ranked (l : list A) : Prop := StronglySorted (λ a b, rank a <= rank b) l.




End Ranked.

(** ** The merge sort, for a consistent comparator *)

Section Consistent.
Context {A : Type} (comparefn : A → A → number) (D : A → Prop).
Hypothesis consistent : consistent_on D (SortCompare comparefn).

Local Abbreviation cmp := (SortCompare comparefn).
Local Abbreviation sorted := (sorted_by comparefn).

Lemma cmp_flip (a b : A) : D a → D b → Z.sgn (cmp b a) = - Z.sgn (cmp a b).
Proof. apply consistent. Qed.

Lemma cmp_refl (a : A) : D a → cmp a a = 0.
Proof. intros Ha. pose proof (cmp_flip a a Ha Ha). lia. Qed.

Lemma cmp_le_trans (a b c : A) :
  D a → D b → D c → cmp a b <= 0 → cmp b c <= 0 → cmp a c <= 0.
Proof. apply consistent. Qed.

Lemma cmp_lt_le_trans (a b c : A) :
  D a → D b → D c → cmp a b < 0 → cmp b c <= 0 → cmp a c < 0.
Proof.
  intros Ha Hb Hc Hab Hbc.
  assert (cmp a c <= 0) by (eapply cmp_le_trans; [..|exact Hbc]; auto; lia).
  destruct (decide (cmp a c = 0)) as [Hz|]; [|lia].
  assert (cmp c a <= 0) by (pose proof (cmp_flip a c Ha Hc); lia).
  assert (cmp b a <= 0) by (eapply cmp_le_trans; [..|exact Hbc|]; auto).
  pose proof (cmp_flip a b Ha Hb). lia.
Qed.

Lemma merge_runs_sorted (l r : list A) :
  Forall D l → Forall D r → sorted l → sorted r → sorted (merge_runs comparefn l r).
Proof.
  revert r. induction l as [|x l IHl]; intros r Dl Dr Hl Hr; [done|].
  induction r as [|y r IHr]; [by rewrite merge_runs_nil_r|].
  rewrite merge_runs_cons.
  apply StronglySorted_inv in Hl as [Hl Hx]. apply StronglySorted_inv in Hr as [Hr Hy].
  apply Forall_cons in Dl as [Dx Dl]. apply Forall_cons in Dr as [Dy Dr].
  destruct (Z.ltb_spec (cmp y x) 0) as [Hlt|Hge].
  - apply SSorted_cons.
    + by apply IHr.
    + rewrite merge_runs_perm. apply Forall_app. split; [|done].
      apply Forall_cons. split; [lia|].
      apply Forall_forall. intros z Hz.
      rewrite Forall_forall in Hx, Dl.
      eapply cmp_le_trans; [..|apply (Hx z Hz)]; auto. lia.
  - assert (cmp x y <= 0) by (pose proof (cmp_flip x y Dx Dy); lia).
    apply SSorted_cons.
    + apply IHl; [done| by apply Forall_cons |done| by apply SSorted_cons].
    + rewrite merge_runs_perm. apply Forall_app. split; [done|].
      apply Forall_cons. split; [done|].
      apply Forall_forall. intros z Hz.
      rewrite Forall_forall in Hy, Dr.
      eapply cmp_le_trans; [..|apply (Hy z Hz)]; auto.
Qed.

Lemma Array_sort_sorted (l : list A) : Forall D l → sorted (Array_sort comparefn l).
Proof.
  intros Dl.
  assert (HD : Forall D (Array_sort comparefn l)) by by rewrite Array_sort_perm.
  revert HD.
  apply (Array_sort_run_invariant comparefn (λ r, Forall D r → sorted r)).
  - constructor.
  - intros x _. repeat constructor.
  - intros a b Ha Hb HD. rewrite merge_runs_perm in HD. apply Forall_app in HD as [Da Db].
    apply merge_runs_sorted; auto.
Qed.

(** Merging keeps the order of the elements that compare equal to [x]. *)
Lemma merge_runs_class (x : A) (l r : list A) :
  D x → Forall D l → Forall D r → sorted l →
  filter (λ y, cmp x y = 0) (merge_runs comparefn l r) =
  filter (λ y, cmp x y = 0) l ++ filter (λ y, cmp x y = 0) r.
Proof.
  intros Dx. revert r. induction l as [|h l IHl]; intros r Dl Dr Hl; [done|].
  induction r as [|y r IHr]; [by rewrite merge_runs_nil_r, app_nil_r|].
  rewrite merge_runs_cons.
  pose proof Hl as Hhl. apply StronglySorted_inv in Hl as [Hl Hh].
  pose proof Dl as Dhl. apply Forall_cons in Dl as [Dh Dl]. apply Forall_cons in Dr as [Dy Dr].
  destruct (Z.ltb_spec (cmp y h) 0) as [Hlt|Hge].
  - rewrite filter_cons. rewrite (filter_cons _ y r). rewrite IHr by done.
    destruct (decide (cmp x y = 0)) as [Hxy|Hxy]; [|done].
    assert (Hnone : filter (λ z, cmp x z = 0) (h :: l) = []).
    { apply filter_none, Forall_forall. intros z Hz Hxz. exfalso.
      assert (Dz : D z) by (by eapply Forall_forall in Dhl).
      assert (Hhz : cmp h z <= 0).
      { apply elem_of_cons in Hz as [->|Hz]; [by rewrite cmp_refl|].
        by eapply Forall_forall in Hh. }
      assert (cmp z x <= 0) by (pose proof (cmp_flip x z Dx Dz); lia).
      assert (cmp h x <= 0) by (eapply cmp_le_trans; [..|exact Hhz|]; auto).
      assert (cmp h y <= 0) by (eapply (cmp_le_trans h x y); auto; lia).
      pose proof (cmp_flip h y Dh Dy). lia. }
    by rewrite Hnone.
  - rewrite filter_cons. rewrite (filter_cons _ h l). rewrite IHl by (done || by apply Forall_cons).
    by destruct (decide (cmp x h = 0)).
Qed.

Lemma merge_pairs_class (x : A) (runs : list (list A)) :
  D x → Forall (λ r, Forall D r ∧ sorted r) runs →
  filter (λ y, cmp x y = 0) (concat (merge_pairs comparefn runs)) = filter (λ y, cmp x y = 0) (concat runs).
Proof.
  intros Dx. induction runs as [|a|a b rest IH] using pairs_ind; intros Hruns; [done..|].
  apply Forall_cons in Hruns as [[Da Ha] Hruns]. apply Forall_cons in Hruns as [[Db Hb] Hruns].
  simpl. rewrite !filter_app, merge_runs_class, IH by done. by rewrite (assoc_L (++)).
Qed.

Lemma merge_pairs_runs (runs : list (list A)) :
  Forall (λ r, Forall D r ∧ sorted r) runs →
  Forall (λ r, Forall D r ∧ sorted r) (merge_pairs comparefn runs).
Proof.
  induction runs as [|a|a b rest IH] using pairs_ind; intros Hruns; [done..|].
  apply Forall_cons in Hruns as [[Da Ha] Hruns]. apply Forall_cons in Hruns as [[Db Hb] Hruns].
  simpl. apply Forall_cons. split; [|by apply IH].
  split; [|by apply merge_runs_sorted].
  rewrite merge_runs_perm. by apply Forall_app.
Qed.

Lemma Array_sort_class (x : A) (l : list A) :
  D x → Forall D l →
  filter (λ y, cmp x y = 0) (Array_sort comparefn l) = filter (λ y, cmp x y = 0) l.
Proof.
  intros Dx Dl. unfold Array_sort.
  set (runs := (λ x, [x]) <$> l).
  assert (Hruns : Forall (λ r, Forall D r ∧ sorted r) runs).
  { subst runs. apply Forall_fmap. eapply Forall_impl; [exact Dl|].
    intros y Dy. simpl. split; repeat constructor; done. }
  rewrite <- (concat_singletons l) at 2. fold runs.
  generalize (Nat.log2_up (length l)). intros n.
  enough (Forall (λ r, Forall D r ∧ sorted r) (Nat.iter n (merge_pairs comparefn) runs) ∧
          filter (λ y, cmp x y = 0) (concat (Nat.iter n (merge_pairs comparefn) runs)) =
          filter (λ y, cmp x y = 0) (concat runs)) by tauto.
  induction n as [|n [IH1 IH2]]; [done|]. simpl. split.
  - by apply merge_pairs_runs.
  - by rewrite merge_pairs_class.
Qed.

(** On an array that is already sorted no element moves. *)
Lemma merge_runs_app (l r : list A) :
  Forall D l → Forall D r → sorted (l ++ r) → merge_runs comparefn l r = l ++ r.
Proof.
  revert r. induction l as [|x l IH]; intros r Dl Dr Hs; [done|].
  destruct r as [|y r]; [by rewrite merge_runs_nil_r, app_nil_r|].
  rewrite merge_runs_cons.
  apply Forall_cons in Dl as [Dx Dl]. pose proof Dr as Dyr. apply Forall_cons in Dr as [Dy Dr].
  simpl in Hs. apply StronglySorted_inv in Hs as [Hs Hx].
  assert (cmp x y <= 0).
  { eapply Forall_forall in Hx; [exact Hx|]. apply elem_of_app. right. by left. }
  destruct (Z.ltb_spec (cmp y x) 0) as [Hlt|Hge].
  - pose proof (cmp_flip x y Dx Dy). lia.
  - simpl. f_equal. by apply IH.
Qed.

Lemma merge_pairs_concat (runs : list (list A)) :
  Forall D (concat runs) → sorted (concat runs) → concat (merge_pairs comparefn runs) = concat runs.
Proof.
  induction runs as [|a|a b rest IH] using pairs_ind; intros HD Hs; [done..|].
  simpl in *. rewrite (assoc_L (++)) in HD, Hs.
  apply Forall_app in HD as [HDab HDrest]. apply Forall_app in HDab as [HDa HDb].
  apply StronglySorted_app_1_l in Hs as Hab. apply StronglySorted_app_1_r in Hs as Hrest.
  rewrite merge_runs_app, IH by done. by rewrite (assoc_L (++)).
Qed.

Lemma Array_sort_fixed (l : list A) : Forall D l → sorted l → Array_sort comparefn l = l.
Proof.
  intros Dl Hs. unfold Array_sort.
  rewrite <- (concat_singletons l) in Dl, Hs. rewrite <- (concat_singletons l) at 3.
  generalize dependent ((λ x : A, [x]) <$> l). intros runs Dl Hs.
  generalize (Nat.log2_up (length l)). intros n.
  induction n as [|n IH]; [done|]. simpl.
  rewrite merge_pairs_concat; rewrite ?IH; done.
Qed.

(** [Array_sort] does what ECMAScript asks of [sort] for a consistent
    comparator: the result is a rearrangement, sorted, and stable. *)
Lemma Array_sort_conforming (l : list A) :
  Forall D l →
  Array_sort comparefn l ≡ₚ l ∧
  sorted (Array_sort comparefn l) ∧
  (∀ x, D x → same_class_order comparefn x l (Array_sort comparefn l)).
Proof.
  intros Dl. split; [apply Array_sort_perm|]. split; [by apply Array_sort_sorted|].
  intros x Dx. by apply Array_sort_class.
Qed.

(** The sorted, stable rearrangement of an array is unique: every engine
    that conforms to ECMAScript returns what [Array_sort] returns. *)
Lemma conforming_sort_unique (l1 l2 : list A) :
  Forall D l1 → l1 ≡ₚ l2 → sorted l1 → sorted l2 →
  (∀ x, D x → filter (λ y, cmp x y = 0) l1 = filter (λ y, cmp x y = 0) l2) →
  l1 = l2.
Proof.
  revert l2. induction l1 as [|a l1 IH]; intros l2 D1 Hp Hs1 Hs2 Hst.
  - by apply Permutation_nil_l in Hp.
  - destruct l2 as [|b l2]; [by apply Permutation_nil_r in Hp|].
    apply Forall_cons in D1 as [Da D1].
    assert (Db : D b).
    { assert (b ∈ a :: l1) as Hb by (rewrite Hp; left).
      apply elem_of_cons in Hb as [->|Hb]; [done|]. by eapply Forall_forall in D1. }
    apply StronglySorted_inv in Hs1 as [Hs1 Ha]. apply StronglySorted_inv in Hs2 as [Hs2 Hb].
    assert (Hab : cmp a b <= 0).
    { assert (b ∈ a :: l1) as Hin by (rewrite Hp; left).
      apply elem_of_cons in Hin as [->|Hin]; [by rewrite cmp_refl|].
      by eapply Forall_forall in Ha. }
    assert (Hba : cmp b a <= 0).
    { assert (a ∈ b :: l2) as Hin by (rewrite <- Hp; left).
      apply elem_of_cons in Hin as [->|Hin]; [by rewrite cmp_refl|].
      by eapply Forall_forall in Hb. }
    assert (Heq : cmp a b = 0) by (pose proof (cmp_flip a b Da Db); lia).
    pose proof (Hst a Da) as Hfa.
    rewrite filter_cons_True in Hfa by by apply cmp_refl.
    rewrite filter_cons_True in Hfa by done.
    injection Hfa as <- _.
    f_equal. apply IH; [done| by eapply Permutation_cons_inv |done..|].
    intros x Dx. specialize (Hst x Dx). rewrite !filter_cons in Hst.
    destruct (decide (cmp x a = 0)); [by injection Hst|done].
Qed.

End Consistent.

(** ** The insertion engines *)

Lemma StronglySorted_reverse {A : Type} (R : A → A → Prop) (l : list A) :
  StronglySorted R l → StronglySorted (flip R) (list.reverse l).
Proof.
  induction 1 as [|x l Hs IH Hx]; [exact (SSorted_nil _)|].
  rewrite reverse_cons. apply StronglySorted_app_2; [|done|repeat constructor].
  intros y z Hy Hz. apply list_elem_of_singleton in Hz as ->.
  rewrite elem_of_reverse in Hy. unfold flip. rewrite Forall_forall in Hx. by apply Hx.
Qed.

Lemma StronglySorted_impl {A : Type} (R R' : A → A → Prop) (l : list A) :
  (∀ x y, R x y → R' x y) → StronglySorted R l → StronglySorted R' l.
Proof.
  intros HR. induction 1 as [|x l Hs IH Hx]; constructor; [done|].
  eapply Forall_impl; [exact Hx|]. auto.
Qed.

Lemma StronglySorted_insert {A : Type} (R : A → A → Prop) (a : list A) (p : nat) (pivot : A) :
  StronglySorted R a →
  Forall (λ e, R e pivot) (take p a) → Forall (R pivot) (drop p a) →
  StronglySorted R (take p a ++ pivot :: drop p a).
Proof.
  intros Hs Hb Ha. rewrite <- (take_drop p a) in Hs.
  apply StronglySorted_app in Hs as (Hcross & Hs1 & Hs2).
  apply StronglySorted_app_2; [|done|by constructor].
  intros x y Hx Hy. apply elem_of_cons in Hy as [->|Hy]; [|by apply Hcross].
  by eapply Forall_forall in Hb.
Qed.

Section BinaryInsertionFacts.
Context {A : Type} (comparefn : A → A → number).

Local Abbreviation cmp := (SortCompare comparefn).

Lemma take_run_app (d : bool) (prev : A) (l : list A) :
  (take_run comparefn d prev l).1 ++ (take_run comparefn d prev l).2 = l.
Proof.
  revert prev. induction l as [|cur l IH]; intros prev; [done|]. simpl.
  destruct (if d then 0 <=? cmp cur prev else cmp cur prev <? 0); [done|].
  specialize (IH cur). destruct (take_run comparefn d cur l) as [run rest].
  simpl in *. by f_equal.
Qed.

(** The elements of a run are linked by the test that lets the run go on. *)
Lemma take_run_Sorted (P : A → Prop) (Q : A → A → Prop) (d : bool) (prev : A) (l : list A) :
  (∀ x y, P x → P y →
     (if d then 0 <=? cmp y x else cmp y x <? 0) = false → Q x y) →
  Forall P (prev :: l) →
  Sorted Q (prev :: (take_run comparefn d prev l).1).
Proof.
  intros HQ. revert prev. induction l as [|cur l IH]; intros prev HP.
  - repeat constructor.
  - apply Forall_cons in HP as [Hprev HP]. pose proof HP as HP'.
    apply Forall_cons in HP' as [Hcur _]. simpl.
    destruct (if d then 0 <=? cmp cur prev else cmp cur prev <? 0) eqn:Htest.
    + repeat constructor.
    + specialize (IH cur HP). destruct (take_run comparefn d cur l) as [run rest].
      simpl in *. constructor; [done|]. constructor. by apply HQ.
Qed.

Lemma count_and_make_run_perm (l : list A) :
  (count_and_make_run comparefn l).1 ++ (count_and_make_run comparefn l).2 ≡ₚ l.
Proof.
  destruct l as [|x [|y l]]; [done..|]. unfold count_and_make_run.
  pose proof (take_run_app (cmp y x <? 0) y l) as Happ.
  destruct (take_run comparefn (cmp y x <? 0) y l) as [run rest]. simpl in *.
  rewrite <- Happ. destruct (cmp y x <? 0); [|done].
  by rewrite reverse_Permutation.
Qed.

Lemma insertion_point_le (fuel : nat) (pivot : A) (a : list A) :
  (insertion_point comparefn fuel pivot a <= length a)%nat.
Proof.
  revert a. induction fuel as [|fuel IH]; intros a; [simpl; lia|].
  cbn [insertion_point].
  destruct (a !! (length a / 2)%nat) as [m|] eqn:Hm; [|lia].
  apply lookup_lt_Some in Hm.
  destruct (cmp pivot m <? 0).
  - specialize (IH (take (length a / 2) a)). rewrite length_take in IH. lia.
  - specialize (IH (drop (S (length a / 2)) a)). rewrite length_drop in IH. lia.
Qed.

(** What the binary search guarantees: on a window ordered by [R], when
    the elements the pivot compares below are [above], the others [below],
    and [R] carries [above] upwards and [below] downwards, the window
    splits at the insertion point into [below] and [above]. *)
Lemma insertion_point_split (P : A → Prop) (R : A → A → Prop) (below above : A → Prop)
    (pivot : A) (fuel : nat) (a : list A) :
  (∀ m e, P m → P e → R m e → above m → above e) →
  (∀ e m, P e → P m → R e m → below m → below e) →
  (∀ m, P m → if cmp pivot m <? 0 then above m else below m) →
  (length a <= fuel)%nat → Forall P a → StronglySorted R a →
  Forall below (take (insertion_point comparefn fuel pivot a) a) ∧
  Forall above (drop (insertion_point comparefn fuel pivot a) a).
Proof.
  intros Hup Hdown Htest. revert a.
  induction fuel as [|fuel IH]; intros a Hlen HP Hs.
  { destruct a; [done|simpl in Hlen; lia]. }
  cbn [insertion_point]. destruct (a !! (length a / 2)%nat) as [m|] eqn:Hm.
  2:{ apply lookup_ge_None in Hm. destruct a as [|x a]; [done|].
      exfalso. cbn [length] in Hm.
      pose proof (Nat.div_lt (S (length a)) 2 ltac:(lia) ltac:(lia)). lia. }
  pose proof (lookup_lt_Some _ _ _ Hm) as Hmid.
  pose proof (take_drop_middle a _ m Hm) as Hsplit.
  set (l1 := take (length a / 2) a) in *. set (l2 := drop (S (length a / 2)) a) in *.
  assert (Hl1 : (length a / 2)%nat = length l1) by (subst l1; rewrite length_take; lia).
  assert (Hl2 : (length l2 <= fuel)%nat) by (subst l2; rewrite length_drop; lia).
  assert (Hl1' : (length l1 <= fuel)%nat) by lia.
  clearbody l1 l2. rewrite Hl1. clear Hl1 Hm Hmid Hlen. subst a.
  apply Forall_app in HP as [HP1 HP2]. apply Forall_cons in HP2 as [HPm HP2].
  apply StronglySorted_app in Hs as (Hcross & Hs1 & Hs2).
  apply StronglySorted_inv in Hs2 as [Hs2 Hm2].
  specialize (Htest m HPm).
  destruct (cmp pivot m <? 0).
  - destruct (IH l1 Hl1' HP1 Hs1) as [IHb IHa].
    pose proof (insertion_point_le fuel pivot l1) as Hle.
    rewrite take_app_le, drop_app_le by done.
    split; [done|]. apply Forall_app. split; [done|]. apply Forall_cons. split; [done|].
    apply Forall_forall. intros e He. rewrite Forall_forall in Hm2, HP2.
    apply (Hup m e); auto.
  - destruct (IH l2 Hl2 HP2 Hs2) as [IHb IHa].
    rewrite (cons_middle m l1 l2), (assoc_L (++)).
    replace (S (length l1) + insertion_point comparefn fuel pivot l2)%nat
      with (length (l1 ++ [m]) + insertion_point comparefn fuel pivot l2)%nat
      by (rewrite length_app; simpl; lia).
    rewrite take_app_add, drop_app_add. split; [|done].
    apply Forall_app. split; [|done]. apply Forall_app. split; [|by repeat constructor].
    apply Forall_forall. intros e He. rewrite Forall_forall in HP1.
    apply (Hdown e m); auto. apply Hcross; [done|left].
Qed.

Lemma binary_insert_perm (a : list A) (pivot : A) :
  binary_insert comparefn a pivot ≡ₚ a ++ [pivot].
Proof.
  unfold binary_insert. rewrite <- Permutation_middle, <- Permutation_cons_append.
  by rewrite take_drop.
Qed.

Lemma foldl_binary_insert_perm (run rest : list A) :
  foldl (binary_insert comparefn) run rest ≡ₚ run ++ rest.
Proof.
  revert run. induction rest as [|x rest IH]; intros run; simpl.
  - by rewrite app_nil_r.
  - rewrite IH, binary_insert_perm. by rewrite <- (assoc_L (++)).
Qed.

Lemma Array_sort_binary_insertion_perm (l : list A) :
  Array_sort_binary_insertion comparefn l ≡ₚ l.
Proof.
  unfold Array_sort_binary_insertion. pose proof (count_and_make_run_perm l) as Hrun.
  destruct (count_and_make_run comparefn l) as [run rest]. simpl in Hrun.
  by rewrite foldl_binary_insert_perm.
Qed.

Lemma Array_sort_insertion_perm (l : list A) : Array_sort_insertion comparefn l ≡ₚ l.
Proof. unfold Array_sort_insertion. by rewrite foldl_binary_insert_perm. Qed.

End BinaryInsertionFacts.

Section BinaryInsertionRanked.
Context {A : Type} (comparefn : A → A → number) (rank : A → Z).
Hypothesis rank_decides :
  ∀ a b, rank a < rank b → SortCompare comparefn a b < 0 ∧ 0 <= SortCompare comparefn b a.

Lemma binary_insert_ranked (a : list A) (pivot : A) :
  ranked rank a → ranked rank (binary_insert comparefn a pivot).
Proof.
  intros Hs. unfold binary_insert, ranked.
  destruct (insertion_point_split comparefn (λ _, True) (λ x y, rank x <= rank y)
              (λ e, rank e <= rank pivot) (λ e, rank pivot <= rank e)
              pivot (length a) a) as [Hb Ha]; try done.
  - intros; lia.
  - intros; lia.
  - intros m _. destruct (Z.ltb_spec (SortCompare comparefn pivot m) 0).
    + destruct (Z.le_gt_cases (rank pivot) (rank m)) as [|Hlt]; [done|].
      apply rank_decides in Hlt. lia.
    + destruct (Z.le_gt_cases (rank m) (rank pivot)) as [|Hlt]; [done|].
      apply rank_decides in Hlt. lia.
  - by apply Forall_true.
  - by apply StronglySorted_insert.
Qed.

Lemma count_and_make_run_ranked (l : list A) :
  ranked rank (count_and_make_run comparefn l).1.
Proof.
  destruct l as [|x [|y l]]; [constructor|repeat constructor|].
  unfold count_and_make_run, ranked.
  destruct (Z.ltb_spec (SortCompare comparefn y x) 0) as [Hlt|Hge].
  - pose proof (take_run_Sorted comparefn (λ _, True) (λ a b, rank b <= rank a) true y l) as Hrun.
    destruct (take_run comparefn true y l) as [run rest]. simpl in *.
    apply (StronglySorted_reverse (λ a b, rank b <= rank a)).
    apply Sorted_StronglySorted; [intros a b c; lia|].
    constructor; [|constructor].
    + apply Hrun; [|by apply Forall_true]. intros a b _ _ Htest.
      apply Z.leb_gt in Htest.
      destruct (Z.le_gt_cases (rank b) (rank a)) as [|Hab]; [done|].
      apply rank_decides in Hab. lia.
    + destruct (Z.le_gt_cases (rank y) (rank x)) as [|Hab]; [done|].
      apply rank_decides in Hab. lia.
  - pose proof (take_run_Sorted comparefn (λ _, True) (λ a b, rank a <= rank b) false y l) as Hrun.
    destruct (take_run comparefn false y l) as [run rest]. simpl in *.
    apply Sorted_StronglySorted; [intros a b c; lia|].
    constructor; [|constructor].
    + apply Hrun; [|by apply Forall_true]. intros a b _ _ Htest.
      apply Z.ltb_ge in Htest.
      destruct (Z.le_gt_cases (rank a) (rank b)) as [|Hab]; [done|].
      apply rank_decides in Hab. lia.
    + destruct (Z.le_gt_cases (rank x) (rank y)) as [|Hab]; [done|].
      apply rank_decides in Hab. lia.
Qed.

Lemma Array_sort_binary_insertion_ranked (l : list A) :
  ranked rank (Array_sort_binary_insertion comparefn l).
Proof.
  unfold Array_sort_binary_insertion. pose proof (count_and_make_run_ranked l) as Hrun.
  destruct (count_and_make_run comparefn l) as [run rest]. simpl in Hrun.
  revert run Hrun. induction rest as [|x rest IH]; intros run Hrun; [done|].
  simpl. by apply IH, binary_insert_ranked.
Qed.

Lemma Array_sort_insertion_ranked (l : list A) :
  ranked rank (Array_sort_insertion comparefn l).
Proof.
  unfold Array_sort_insertion.
  assert (Hnil : ranked rank []) by constructor.
  revert Hnil. generalize (@nil A).
  induction l as [|x l IH]; intros run Hrun; [done|].
  simpl. by apply IH, binary_insert_ranked.
Qed.

End BinaryInsertionRanked.

Section BinaryInsertionConsistent.
Context {A : Type} (comparefn : A → A → number) (D : A → Prop).
Hypothesis consistent : consistent_on D (SortCompare comparefn).

Local Abbreviation cmp := (SortCompare comparefn).
Local Abbreviation sorted := (sorted_by comparefn).

Lemma binary_insert_split (a : list A) (pivot : A) :
  Forall D a → D pivot → sorted a →
  Forall (λ e, cmp e pivot <= 0) (take (insertion_point comparefn (length a) pivot a) a) ∧
  Forall (λ e, cmp pivot e < 0) (drop (insertion_point comparefn (length a) pivot a) a).
Proof.
  intros Da Dp Hs.
  apply (insertion_point_split comparefn D (λ x y, cmp x y <= 0)); try done.
  - intros m e Dm De Hme Hpm. by apply (cmp_lt_le_trans comparefn D consistent pivot m e).
  - intros e m De Dm Hem Hmp. by apply (cmp_le_trans comparefn D consistent e m pivot).
  - intros m Dm. destruct (Z.ltb_spec (cmp pivot m) 0); [done|].
    pose proof (cmp_flip comparefn D consistent pivot m Dp Dm). lia.
Qed.

Lemma binary_insert_sorted (a : list A) (pivot : A) :
  Forall D a → D pivot → sorted a → sorted (binary_insert comparefn a pivot).
Proof.
  intros Da Dp Hs. destruct (binary_insert_split a pivot Da Dp Hs) as [Hb Ha].
  apply StronglySorted_insert; [done..|].
  eapply Forall_impl; [exact Ha|]. simpl. lia.
Qed.

Lemma binary_insert_class (x : A) (a : list A) (pivot : A) :
  D x → Forall D a → D pivot → sorted a →
  filter (λ y, cmp x y = 0) (binary_insert comparefn a pivot) =
  filter (λ y, cmp x y = 0) (a ++ [pivot]).
Proof.
  intros Dx Da Dp Hs. destruct (binary_insert_split a pivot Da Dp Hs) as [Hb Ha].
  unfold binary_insert. set (p := insertion_point comparefn (length a) pivot a) in *.
  assert (Hsplit : filter (λ y, cmp x y = 0) a =
                   filter (λ y, cmp x y = 0) (take p a) ++ filter (λ y, cmp x y = 0) (drop p a))
    by (by rewrite <- filter_app, take_drop).
  rewrite !filter_app, Hsplit.
  destruct (decide (cmp x pivot = 0)) as [Hxp|Hxp].
  2:{ rewrite !filter_cons_False by done. by rewrite filter_nil, app_nil_r. }
  rewrite !filter_cons_True by done. rewrite filter_nil.
  rewrite (filter_none (λ y, cmp x y = 0) (drop p a)); [by rewrite app_nil_r|].
  apply Forall_forall. intros e He Hxe.
  assert (De : D e).
  { rewrite <- (take_drop p a) in Da.
    apply Forall_app in Da as [_ Da]. by eapply Forall_forall in Da. }
  rewrite Forall_forall in Ha. specialize (Ha e He).
  assert (cmp pivot x <= 0) by (pose proof (cmp_flip comparefn D consistent x pivot Dx Dp); lia).
  assert (cmp x e <= 0) by lia.
  assert (cmp pivot e <= 0) by by apply (cmp_le_trans comparefn D consistent pivot x e).
  assert (cmp e x <= 0) by (pose proof (cmp_flip comparefn D consistent x e Dx De); lia).
  assert (cmp x pivot <= 0) by lia.
  assert (cmp e pivot <= 0) by by apply (cmp_le_trans comparefn D consistent e x pivot).
  pose proof (cmp_flip comparefn D consistent pivot e Dp De). lia.
Qed.

(** In a strictly descending run no two elements compare equal, so that
    reversing it keeps the order of the elements that compare equal. *)
Lemma descending_class (x : A) (r : list A) :
  D x → Forall D r → StronglySorted (λ a b, cmp b a < 0) r →
  filter (λ y, cmp x y = 0) (list.reverse r) = filter (λ y, cmp x y = 0) r.
Proof.
  intros Dx Dr Hs. rewrite filter_reverse.
  enough (length (filter (λ y, (cmp x y = 0)%Z) r) <= 1)%nat as Hlen.
  { destruct (filter (λ y, cmp x y = 0) r) as [|e [|e' l]]; [done..|simpl in Hlen; lia]. }
  induction Hs as [|a r Hs IH Ha]; [simpl; lia|].
  apply Forall_cons in Dr as [Da Dr]. rewrite filter_cons.
  destruct (decide (cmp x a = 0)) as [Hxa|Hxa]; [|by apply IH].
  rewrite (filter_none (λ y, cmp x y = 0) r); [simpl; lia|].
  apply Forall_forall. intros e He Hxe.
  assert (De : D e) by (by eapply Forall_forall in Dr).
  rewrite Forall_forall in Ha. specialize (Ha e He). simpl in Ha.
  assert (cmp a x <= 0) by (pose proof (cmp_flip comparefn D consistent x a Dx Da); lia).
  assert (cmp x e <= 0) by lia.
  assert (cmp a e <= 0) by by apply (cmp_le_trans comparefn D consistent a x e).
  pose proof (cmp_flip comparefn D consistent a e Da De). lia.
Qed.

Lemma count_and_make_run_sorted (l : list A) :
  Forall D l →
  sorted (count_and_make_run comparefn l).1 ∧
  ∀ x, D x →
    filter (λ y, cmp x y = 0)
      ((count_and_make_run comparefn l).1 ++ (count_and_make_run comparefn l).2) =
    filter (λ y, cmp x y = 0) l.
Proof.
  intros Dl. destruct l as [|x [|y l]]; [by split; [constructor|]|by split; [repeat constructor|]|].
  unfold count_and_make_run.
  pose proof Dl as Dl'. apply Forall_cons in Dl' as [Dx Dyl].
  pose proof Dyl as Dyl'. apply Forall_cons in Dyl' as [Dy _].
  destruct (Z.ltb_spec (cmp y x) 0) as [Hlt|Hge].
  - pose proof (take_run_Sorted comparefn D (λ a b, D a ∧ D b ∧ cmp b a < 0) true y l) as Hrun.
    pose proof (take_run_app comparefn true y l) as Happ.
    destruct (take_run comparefn true y l) as [run rest]. simpl in *.
    assert (Hs : StronglySorted (λ a b, D a ∧ D b ∧ cmp b a < 0) (x :: y :: run)).
    { apply Sorted_StronglySorted.
      - intros a b c (Da & Db & Hab) (_ & Dc & Hbc). split; [done|]. split; [done|].
        apply (cmp_lt_le_trans comparefn D consistent c b a); [done..|lia].
      - constructor; [|by constructor].
        apply Hrun; [|done]. intros a b Da Db Htest. apply Z.leb_gt in Htest. done. }
    assert (Dr : Forall D (x :: y :: run)).
    { rewrite <- Happ in Dl. rewrite !app_comm_cons in Dl. by apply Forall_app in Dl as [? _]. }
    split.
    + apply (StronglySorted_impl (flip (λ a b, D a ∧ D b ∧ cmp b a < 0))).
      * unfold flip. intros a b (_ & _ & Hab). lia.
      * by apply StronglySorted_reverse.
    + intros z Dz. rewrite filter_app, descending_class; [|done..|].
      * by rewrite <- filter_app, <- Happ.
      * eapply StronglySorted_impl; [|exact Hs]. by intros a b (_ & _ & Hab).
  - pose proof (take_run_Sorted comparefn D (λ a b, D a ∧ D b ∧ cmp a b <= 0) false y l) as Hrun.
    pose proof (take_run_app comparefn false y l) as Happ.
    destruct (take_run comparefn false y l) as [run rest]. simpl in *.
    split; [|intros z Dz; by rewrite <- Happ].
    apply (StronglySorted_impl (λ a b, D a ∧ D b ∧ cmp a b <= 0)); [by intros a b (_ & _ & Hab)|].
    apply Sorted_StronglySorted.
    + intros a b c (Da & Db & Hab) (_ & Dc & Hbc). split; [done|]. split; [done|].
      by apply (cmp_le_trans comparefn D consistent a b c).
    + constructor.
      * apply Hrun; [|done]. intros a b Da Db Htest. apply Z.ltb_ge in Htest.
        pose proof (cmp_flip comparefn D consistent a b Da Db). split; [done|]. split; [done|lia].
      * constructor. pose proof (cmp_flip comparefn D consistent x y Dx Dy).
        split; [done|]. split; [done|lia].
Qed.

Lemma foldl_binary_insert_sorted (run rest : list A) :
  Forall D run → Forall D rest → sorted run →
  sorted (foldl (binary_insert comparefn) run rest) ∧
  ∀ x, D x →
    filter (λ y, cmp x y = 0) (foldl (binary_insert comparefn) run rest) =
    filter (λ y, cmp x y = 0) (run ++ rest).
Proof.
  revert run. induction rest as [|p rest IH]; intros run Drun Drest Hs.
  - simpl. split; [done|]. intros x _. by rewrite app_nil_r.
  - apply Forall_cons in Drest as [Dp Drest]. simpl.
    destruct (IH (binary_insert comparefn run p)) as [IHs IHc].
    + rewrite binary_insert_perm. apply Forall_app. split; [done|by repeat constructor].
    + done.
    + by apply binary_insert_sorted.
    + split; [done|]. intros x Dx. rewrite IHc by done.
      rewrite filter_app, binary_insert_class by done.
      by rewrite <- filter_app, <- (assoc_L (++)).
Qed.

(** On a consistent comparator the two engines return the same array. *)
Lemma Array_sort_binary_insertion_eq (l : list A) :
  Forall D l → Array_sort_binary_insertion comparefn l = Array_sort comparefn l.
Proof.
  intros Dl.
  destruct (count_and_make_run_sorted l Dl) as [Hrun Hclass].
  pose proof (count_and_make_run_perm comparefn l) as Hperm.
  pose proof (Array_sort_binary_insertion_perm comparefn l) as Hperm'.
  unfold Array_sort_binary_insertion in *.
  destruct (count_and_make_run comparefn l) as [run rest]. simpl in *.
  assert (Dall : Forall D (run ++ rest)) by by rewrite Hperm.
  apply Forall_app in Dall as [Drun Drest].
  destruct (foldl_binary_insert_sorted run rest Drun Drest Hrun) as [Hs Hc].
  apply (conforming_sort_unique comparefn D consistent).
  - by rewrite Hperm'.
  - by rewrite Hperm', Array_sort_perm.
  - done.
  - by apply (Array_sort_sorted comparefn D).
  - intros x Dx. rewrite Hc, Hclass by done. symmetry.
    by apply (Array_sort_class comparefn D).
Qed.

Lemma Array_sort_insertion_eq (l : list A) :
  Forall D l → Array_sort_insertion comparefn l = Array_sort comparefn l.
Proof.
  intros Dl.
  pose proof (Array_sort_insertion_perm comparefn l) as Hperm.
  unfold Array_sort_insertion in *.
  destruct (foldl_binary_insert_sorted [] l (Forall_nil_2 _) Dl (SSorted_nil _)) as [Hs Hc].
  apply (conforming_sort_unique comparefn D consistent).
  - by rewrite Hperm.
  - by rewrite Hperm, Array_sort_perm.
  - done.
  - by apply (Array_sort_sorted comparefn D).
  - intros x Dx. rewrite Hc by done. simpl. symmetry.
    by apply (Array_sort_class comparefn D).
Qed.

End BinaryInsertionConsistent.

(** ** Consistent comparisons *)

Section ConsistentOn.
Context {A : Type} (D : A → Prop).

Lemma consistent_on_diff (f : A → Z) : consistent_on D (λ a b, f a - f b).
Proof. split; intros; lia. Qed.

Lemma consistent_on_ext (k k' : A → A → Z) :
  (∀ a b, D a → D b → k' a b = k a b) → consistent_on D k → consistent_on D k'.
Proof.
  intros Hext [Hanti Htrans]. split.
  - intros a b Da Db. rewrite !Hext by done. by apply Hanti.
  - intros a b c Da Db Dc. rewrite !Hext by done. by apply Htrans.
Qed.

Lemma consistent_on_scale (k : A → A → Z) (r : Z) :
  r = 1 ∨ r = -1 → consistent_on D k → consistent_on D (λ a b, k a b * r).
Proof.
  intros Hr [Hanti Htrans]. split.
  - intros a b Da Db. specialize (Hanti a b Da Db). destruct Hr as [-> | ->]; lia.
  - intros a b c Da Db Dc Hab Hbc. destruct Hr as [-> | ->].
    + specialize (Htrans a b c Da Db Dc). lia.
    + pose proof (Hanti a b Da Db). pose proof (Hanti b c Db Dc).
      pose proof (Hanti a c Da Dc). specialize (Htrans c b a Dc Db Da). lia.
Qed.

Lemma consistent_on_lex (rank : A → Z) (k : A → A → Z) :
  consistent_on D k →
  consistent_on D (λ a b, if negb (rank a =? rank b) then rank a - rank b else k a b).
Proof.
  intros [Hanti Htrans]. split.
  - intros a b Da Db. specialize (Hanti a b Da Db).
    destruct (Z.eqb_spec (rank a) (rank b)), (Z.eqb_spec (rank b) (rank a)); simpl; lia.
  - intros a b c Da Db Dc. specialize (Htrans a b c Da Db Dc).
    destruct (Z.eqb_spec (rank a) (rank b)), (Z.eqb_spec (rank b) (rank c)),
      (Z.eqb_spec (rank a) (rank c)); simpl; lia.
Qed.

Lemma consistent_on_pull {B : Type} (g : A → B) (k : B → B → Z) :
  consistent_on (λ _, True) k → consistent_on D (λ a b, k (g a) (g b)).
Proof.
  intros [Hanti Htrans]. split.
  - intros a b _ _. by apply Hanti.
  - intros a b c _ _ _. by apply Htrans.
Qed.

End ConsistentOn.

(** ** [cLocaleCompare] *)

Lemma cLocaleCompare_loop_units (pa pb a b : jsstring) :
  length pa = length pb →
  default (Num (Z.of_nat (length (pa ++ a)) - Z.of_nat (length (pb ++ b))))
    (cLocaleCompare_loop (pa ++ a) (pb ++ b) (length pa) (Nat.min (length a) (length b)))
  = Num (compare_units a b).
Proof.
  revert pa pb b. induction a as [|x a IH]; intros pa pb b Hlen.
  - simpl. rewrite !length_app. simpl. f_equal. lia.
  - destruct b as [|y b].
    + simpl. rewrite !length_app. simpl. f_equal. lia.
    + simpl. unfold charCodeAt.
      rewrite !list_lookup_middle by done.
      simpl. destruct (Z.eqb_spec x y) as [->|Hne]; simpl; [|done].
      specialize (IH (pa ++ [y]) (pb ++ [y]) b).
      rewrite !length_app, <- !(assoc_L (++)) in IH. simpl in IH.
      rewrite Nat.add_1_r in IH. rewrite <- IH by lia.
      do 3 f_equal; rewrite length_app; simpl; lia.
Qed.

(** [cLocaleCompare] never yields [NaN]: it is [compare_units]. *)
Lemma cLocaleCompare_units (a b : jsstring) : cLocaleCompare a b = Num (compare_units a b).
Proof.
  pose proof (cLocaleCompare_loop_units [] [] a b eq_refl) as Hloop.
  unfold cLocaleCompare. simpl in *.
  by destruct (cLocaleCompare_loop a b 0 (Nat.min (length a) (length b))).
Qed.

Lemma compare_units_antisym (a b : jsstring) : compare_units b a = - compare_units a b.
Proof.
  revert b. induction a as [|x a IH]; intros [|y b]; simpl; try lia.
  rewrite (Z.eqb_sym y x). destruct (x =? y); [apply IH|lia].
Qed.

Lemma compare_units_eq (a b : jsstring) : compare_units a b = 0 ↔ a = b.
Proof.
  revert b. induction a as [|x a IH]; intros [|y b]; simpl; split; try done; try lia.
  - destruct (Z.eqb_spec x y) as [->|]; [|lia]. intros Hab. f_equal. by apply IH.
  - intros [= -> ->]. rewrite Z.eqb_refl. by apply IH.
Qed.

Lemma compare_units_trans (a b c : jsstring) :
  compare_units a b <= 0 → compare_units b c <= 0 → compare_units a c <= 0.
Proof.
  revert b c. induction a as [|x a IH]; intros [|y b] [|z c]; simpl; try lia.
  destruct (Z.eqb_spec x y), (Z.eqb_spec y z), (Z.eqb_spec x z); try lia.
  apply IH.
Qed.

Lemma compare_units_consistent : consistent_on (λ _, True) compare_units.
Proof.
  split.
  - intros a b _ _. rewrite compare_units_antisym. lia.
  - intros a b c _ _ _. apply compare_units_trans.
Qed.

(** The first index at which two strings differ decides. *)
Lemma compare_units_first_diff (a b : jsstring) (i : nat) (x y : Z) :
  take i a = take i b → a !! i = Some x → b !! i = Some y → x ≠ y →
  compare_units a b = x - y.
Proof.
  revert b i. induction a as [|x' a IH]; intros [|y' b] [|i]; simpl; try done.
  - intros _ [= ->] [= ->] Hne. by destruct (Z.eqb_spec x y).
  - intros [= -> Htake] Ha Hb Hne. rewrite Z.eqb_refl. by eapply IH.
Qed.

(** A proper prefix sorts first. *)
Lemma compare_units_prefix (a c : jsstring) :
  c ≠ [] → compare_units a (a ++ c) < 0.
Proof.
  intros Hc. induction a as [|x a IH]; simpl.
  - destruct c; [done|]. simpl. lia.
  - by rewrite Z.eqb_refl.
Qed.

Lemma compare_units_prefix_value (a c : jsstring) :
  compare_units a (a ++ c) = Z.of_nat (length a) - Z.of_nat (length (a ++ c)).
Proof.
  induction a as [|x a IH]; simpl.
  - lia.
  - rewrite Z.eqb_refl, IH. destruct a, c; simpl; rewrite ?length_app; simpl; lia.
Qed.

(** ** The comparator of [sortItems] *)

Section Comparator.
Context `{Host}.

Lemma comparator_other_tier (cfg : Settings) (state : SortState) (a b : IModel) :
  getPriority cfg a ≠ getPriority cfg b →
  comparator cfg state a b = Num (getPriority cfg a - getPriority cfg b).
Proof.
  intros Hne. unfold comparator. by destruct (Z.eqb_spec (getPriority cfg a) (getPriority cfg b)).
Qed.

Lemma comparator_same_tier (cfg : Settings) (state : SortState) (a b : IModel) :
  getPriority cfg a = getPriority cfg b →
  comparator cfg state a b = num_mul (key_compare cfg state a b) (Num (reverse state)).
Proof.
  intros Heq. unfold comparator. by destruct (Z.eqb_spec (getPriority cfg a) (getPriority cfg b)).
Qed.

Lemma comparator_rank (cfg : Settings) (state : SortState) (a b : IModel) :
  getPriority cfg a < getPriority cfg b →
  SortCompare (comparator cfg state) a b < 0 ∧ 0 <= SortCompare (comparator cfg state) b a.
Proof.
  intros Hlt. unfold SortCompare. rewrite !comparator_other_tier by lia. lia.
Qed.



Lemma getPriority_range (cfg : Settings) (e : IModel) : 0 <= getPriority cfg e <= 2.
Proof. unfold getPriority. repeat case_match; lia. Qed.


(** The second engine orders the tiers as well. *)
Lemma binary_insertion_tiers (cfg : Settings) (state : SortState) (items : list IModel) :
  ranked (getPriority cfg) (Array_sort_binary_insertion (comparator cfg state) items).
Proof. apply Array_sort_binary_insertion_ranked, comparator_rank. Qed.

(** And so does the third. *)
Lemma insertion_tiers (cfg : Settings) (state : SortState) (items : list IModel) :
  ranked (getPriority cfg) (Array_sort_insertion (comparator cfg state) items).
Proof. apply Array_sort_insertion_ranked, comparator_rank. Qed.

Lemma key_compare_dated (cfg : Settings) (state : SortState) (a b : IModel) :
  dated state a → dated state b →
  key_compare cfg state a b = Num (key_compare_Z cfg state a b).
Proof.
  unfold dated, key_compare, key_compare_Z, compareByName, defaultLocaleCompare, time_of.
  intros Da Db. destruct (String.eqb_spec (key state) "last_modified") as [Hk|Hk].
  - specialize (Da Hk). specialize (Db Hk).
    by destruct (Date_getTime (last_modified a)), (Date_getTime (last_modified b)).
  - destruct (String.eqb (key state) "file_size"); [done|].
    destruct (useCLocaleSorting cfg); [|done]. apply cLocaleCompare_units.
Qed.

Lemma SortCompare_dated (cfg : Settings) (state : SortState) (a b : IModel) :
  dated state a → dated state b →
  SortCompare (comparator cfg state) a b =
  if negb (getPriority cfg a =? getPriority cfg b)
  then getPriority cfg a - getPriority cfg b
  else key_compare_Z cfg state a b * reverse state.
Proof.
  intros Da Db. unfold SortCompare, comparator.
  destruct (negb (getPriority cfg a =? getPriority cfg b)); [done|].
  simpl. by rewrite key_compare_dated.
Qed.

Lemma comparator_dated (cfg : Settings) (state : SortState) (a b : IModel) :
  dated state a → dated state b →
  comparator cfg state a b = Num (SortCompare (comparator cfg state) a b).
Proof.
  intros Da Db. unfold SortCompare, comparator.
  destruct (negb (getPriority cfg a =? getPriority cfg b)); [done|].
  simpl. by rewrite key_compare_dated.
Qed.

Lemma reverse_unit (state : SortState) : reverse state = 1 ∨ reverse state = -1.
Proof. unfold reverse. destruct (direction state); auto. Qed.

Lemma key_compare_Z_consistent (cfg : Settings) (state : SortState) :
  (String.eqb (key state) "last_modified" = false →
   String.eqb (key state) "file_size" = false →
   useCLocaleSorting cfg = false → consistent_collator localeCompare) →
  consistent_on (dated state) (key_compare_Z cfg state).
Proof.
  intros Hlc. unfold key_compare_Z.
  destruct (String.eqb (key state) "last_modified"); [apply consistent_on_diff|].
  destruct (String.eqb (key state) "file_size").
  { apply (consistent_on_ext _ (λ a b, (- nullish0 (size a)) - (- nullish0 (size b)))).
    - intros; lia.
    - apply consistent_on_diff. }
  destruct (useCLocaleSorting cfg).
  - apply (consistent_on_pull _ name), compare_units_consistent.
  - apply (consistent_on_pull _ name). by apply Hlc.
Qed.

Lemma comparator_consistent (cfg : Settings) (state : SortState) :
  (String.eqb (key state) "last_modified" = false →
   String.eqb (key state) "file_size" = false →
   useCLocaleSorting cfg = false → consistent_collator localeCompare) →
  consistent_on (dated state) (SortCompare (comparator cfg state)).
Proof.
  intros Hlc.
  eapply consistent_on_ext; [intros a b Da Db; by apply SortCompare_dated|].
  apply (consistent_on_lex _ (getPriority cfg)).
  apply consistent_on_scale; [apply reverse_unit|]. by apply key_compare_Z_consistent.
Qed.

Lemma sortItems_perm (cfg : Settings) (state : SortState) (items : list IModel) :
  sortItems cfg items state ≡ₚ items.
Proof. apply Array_sort_perm. Qed.

Lemma sortItems_sorted (cfg : Settings) (state : SortState) (items : list IModel) :
  (String.eqb (key state) "last_modified" = false →
   String.eqb (key state) "file_size" = false →
   useCLocaleSorting cfg = false → consistent_collator localeCompare) →
  Forall (dated state) items →
  sorted_by (comparator cfg state) (sortItems cfg items state).
Proof.
  intros Hlc Hd. eapply Array_sort_sorted; [|exact Hd]. by apply comparator_consistent.
Qed.

(** The two revisions of [sortItems] return the same array. *)
Lemma sortItems_earlier_eq (items : list IModel) (state : SortState) (nb cl : bool) :
  Earlier.sortItems state nb cl items =
  sortItems {| sortNotebooksFirst := nb; useCLocaleSorting := cl |} items state.
Proof.
  unfold Earlier.sortItems, Earlier.compare, Earlier.compareByName, Earlier.getPriority.
  unfold sortItems, comparator, key_compare, compareByName, getPriority. simpl.
  destruct (String.eqb (key state) "last_modified"); [done|].
  by destruct (String.eqb (key state) "file_size").
Qed.

End Comparator.

(** ** Names in byte order *)

Section NameOrder.
Context `{Host}.

Lemma cLocaleCompare_first_difference : orders_by_first_difference (λ s, s) cLocaleCompare.
Proof.
  intros a b i x y Htake Ha Hb Hne. exists (compare_units a b).
  split; [apply cLocaleCompare_units|].
  by rewrite (compare_units_first_diff a b i x y).
Qed.

Lemma code_points_no_surrogates (s : jsstring) : no_surrogates s → code_points s = s.
Proof.
  induction 1 as [|hi rest Hhi Hrest IH]; [done|].
  simpl. destruct rest as [|lo rest']; [done|].
  rewrite IH. repeat case_bool_decide; repeat case_match; try done; lia.
Qed.

Lemma compare_units_AntiSymm : AntiSymm (=) (λ a b : jsstring, compare_units a b <= 0).
Proof.
  intros a b Hab Hba. apply compare_units_eq.
  rewrite (compare_units_antisym a b) in Hba. lia.
Qed.

Lemma ten_names_sorted : StronglySorted (λ a b : jsstring, compare_units a b <= 0) ten_names.
Proof.
  let l := eval vm_compute in ten_names in change ten_names with l.
  repeat (apply SSorted_cons;
          [|repeat (apply Forall_cons; split; [by vm_compute|]); by apply Forall_nil]).
  apply SSorted_nil.
Qed.

(** Entries of one type, sorted by name in byte order, ascending: their
    names are in [compare_units] order. *)
Lemma sorted_names (cfg : Settings) (t : string) (l : list IModel) :
  useCLocaleSorting cfg = true →
  Forall (λ e, type e = t) l →
  sorted_by (comparator cfg by_name) l →
  StronglySorted (λ a b : jsstring, compare_units a b <= 0) (name <$> l).
Proof.
  intros Hc Ht Hs. induction Hs as [|x l Hs IH Hx]; [constructor|].
  apply Forall_cons in Ht as [Hxt Ht]. simpl. apply SSorted_cons; [by apply IH|].
  apply Forall_fmap, Forall_forall. intros y Hy.
  rewrite Forall_forall in Hx, Ht. specialize (Hx y Hy). simpl in *.
  unfold SortCompare in Hx. rewrite comparator_same_tier in Hx.
  - unfold key_compare, compareByName in Hx. simpl in Hx.
    rewrite Hc, cLocaleCompare_units in Hx. simpl in Hx.
    change (reverse by_name) with 1 in Hx. lia.
  - unfold getPriority. by rewrite Hxt, (Ht y Hy).
Qed.

Lemma ten_names_order (cfg : Settings) (t : string) (items : list IModel) :
  useCLocaleSorting cfg = true →
  Forall (λ e, type e = t) items →
  name <$> items ≡ₚ ten_names →
  name <$> sortItems cfg items by_name = ten_names.
Proof.
  intros Hc Ht Hp.
  apply (@StronglySorted_unique _ (λ a b : jsstring, compare_units a b <= 0)
           compare_units_AntiSymm).
  - apply (sorted_names cfg t); [done| |].
    + by rewrite sortItems_perm.
    + apply sortItems_sorted; [by rewrite Hc|].
      apply Forall_forall. by intros e _ ?.
  - apply ten_names_sorted.
  - by rewrite sortItems_perm.
Qed.

End NameOrder.

(** ** Stability and idempotence *)

Lemma filter_within {A : Type} (P Q : A → Prop)
    `{∀ x, Decision (P x)} `{∀ x, Decision (Q x)} (l : list A) :
  (∀ x, P x → Q x) → filter P (filter Q l) = filter P l.
Proof.
  intros HPQ. induction l as [|x l IH]; [done|].
  rewrite (filter_cons Q). destruct (decide (Q x)) as [HQ|HQ].
  - rewrite !filter_cons. by rewrite IH.
  - rewrite IH. rewrite filter_cons_False; [done|]. intros HP. by apply HQ, HPQ.
Qed.

Section Stability.
Context `{Host}.

Lemma sortItems_class (cfg : Settings) (state : SortState) (items : list IModel) (x : IModel) :
  (useCLocaleSorting cfg = false → consistent_collator localeCompare) →
  Forall (dated state) items → dated state x →
  same_class_order (comparator cfg state) x items (sortItems cfg items state).
Proof.
  intros Hlc Hd Hx. unfold same_class_order, sortItems.
  eapply Array_sort_class; [|exact Hx|exact Hd].
  apply comparator_consistent. auto.
Qed.

(** On entries whose timestamps parse, every sort that conforms to
    ECMAScript (a sorted, stable rearrangement) returns what [sortItems]
    returns here. *)
Lemma sortItems_engine_independent (cfg : Settings) (state : SortState)
    (items result : list IModel) :
  (useCLocaleSorting cfg = false → consistent_collator localeCompare) →
  Forall (dated state) items →
  result ≡ₚ items →
  sorted_by (comparator cfg state) result →
  (∀ x, dated state x → same_class_order (comparator cfg state) x items result) →
  result = sortItems cfg items state.
Proof.
  intros Hlc Hd Hp Hs Hst.
  eapply conforming_sort_unique.
  - apply comparator_consistent. eauto.
  - by rewrite Hp.
  - by rewrite Hp, sortItems_perm.
  - done.
  - apply sortItems_sorted; auto.
  - intros x Dx. rewrite (Hst x Dx). symmetry. by apply sortItems_class.
Qed.

(** In particular the second engine does. *)
Lemma sortItems_binary_insertion (cfg : Settings) (state : SortState) (items : list IModel) :
  (useCLocaleSorting cfg = false → consistent_collator localeCompare) →
  Forall (dated state) items →
  Array_sort_binary_insertion (comparator cfg state) items = sortItems cfg items state.
Proof.
  intros Hlc Hd. unfold sortItems.
  eapply Array_sort_binary_insertion_eq; [|exact Hd].
  apply comparator_consistent. auto.
Qed.

Lemma sortItems_insertion (cfg : Settings) (state : SortState) (items : list IModel) :
  (useCLocaleSorting cfg = false → consistent_collator localeCompare) →
  Forall (dated state) items →
  Array_sort_insertion (comparator cfg state) items = sortItems cfg items state.
Proof.
  intros Hlc Hd. unfold sortItems.
  eapply Array_sort_insertion_eq; [|exact Hd].
  apply comparator_consistent. auto.
Qed.

End Stability.

Lemma folded_compare_consistent : consistent_collator folded_compare.
Proof.
  apply (consistent_on_pull (λ _, True) (fmap fold_case) compare_units).
  apply compare_units_consistent.
Qed.

(** * The claims *)

(** C1 as stated fails: the name comparator does not order strings by
    their first differing code point.  U+FF5E is below U+20BB7, but its
    code unit FF5E is above the lead surrogate D842. *)
Lemma cLocaleCompare_not_by_code_point :
  ¬ orders_by_first_difference code_points cLocaleCompare.
Proof.
  intros Hclaim.
  destruct (Hclaim fullwidth_tilde astral_ideograph 0%nat 65374 134071)
    as (r & Hr & Hsgn); [done..|].
  vm_compute in Hr. injection Hr as <-. vm_compute in Hsgn. discriminate.
Qed.

(** C1, amended. In byte-order mode the name comparator orders two
    strings by their first differing UTF-16 code unit, which is the code
    point when the strings hold no surrogate; a proper prefix sorts
    first; and ten entries of one type with the ten names of the
    specification, in whatever order they come, are returned by
    [sortItems] (key [name], ascending) in the expected order. *)
Theorem cLocale_order_by_code_unit `{Host} :
  orders_by_first_difference (λ s, s) cLocaleCompare ∧
  (∀ s, no_surrogates s → code_points s = s) ∧
  (∀ a c, c ≠ [] →
     ∃ r, cLocaleCompare a (a ++ c) = Num r ∧ r < 0 ∧
          cLocaleCompare (a ++ c) a = Num (- r)) ∧
  (∀ cfg a b, useCLocaleSorting cfg = true →
     getPriority cfg a = getPriority cfg b →
     comparator cfg by_name a b = cLocaleCompare (name a) (name b)) ∧
  (∀ cfg t items, useCLocaleSorting cfg = true →
     Forall (λ e, type e = t) items →
     name <$> items ≡ₚ ten_names →
     name <$> sortItems cfg items by_name = ten_names).
Proof.
  split; [apply cLocaleCompare_first_difference|].
  split; [apply code_points_no_surrogates|].
  split; [|split].
  - intros a c Hc. exists (compare_units a (a ++ c)).
    split; [apply cLocaleCompare_units|].
    split; [by apply compare_units_prefix|].
    by rewrite cLocaleCompare_units, compare_units_antisym.
  - intros cfg a b Hc Htier. rewrite comparator_same_tier by done.
    unfold key_compare, compareByName. simpl. rewrite Hc, cLocaleCompare_units.
    simpl. change (reverse by_name) with 1. f_equal. lia.
  - apply ten_names_order.
Qed.

Lemma cLocale_order_by_code_unit_witness :
  name <$> sortItems (H := example_host) default_settings ten_files by_name = ten_names.
Proof.
  apply (proj2 (proj2 (proj2 (proj2 (cLocale_order_by_code_unit (H := example_host)))))
           default_settings "file"%string ten_files).
  - reflexivity.
  - repeat constructor.
  - change (rev ten_names ≡ₚ ten_names). symmetry. apply Permutation_rev.
Defined.


(** C3. With key [file_size] the comparison of two entries of one tier is
    [(b.size ?? 0) - (a.size ?? 0)], times the direction multiplier; so
    with direction ascending the larger of two entries of one tier stands
    first in the array [sortItems] returns. *)
Theorem file_size_larger_first `{Host} (cfg : Settings) :
  (∀ d a b,
     key_compare cfg {| direction := d; key := "file_size" |} a b =
     Num (nullish0 (size b) - nullish0 (size a))) ∧
  (∀ d a b, getPriority cfg a = getPriority cfg b →
     comparator cfg {| direction := d; key := "file_size" |} a b =
     num_mul (Num (nullish0 (size b) - nullish0 (size a)))
             (Num (reverse {| direction := d; key := "file_size" |}))) ∧
  (∀ items i j a b,
     sortItems cfg items {| direction := ascending; key := "file_size" |} !! i = Some a →
     sortItems cfg items {| direction := ascending; key := "file_size" |} !! j = Some b →
     getPriority cfg a = getPriority cfg b →
     nullish0 (size b) < nullish0 (size a) → (i < j)%nat).
Proof.
  split; [done|]. split.
  - intros d a b Htier. by rewrite comparator_same_tier.
  - intros items i j a b Hi Hj Htier Hsize.
    set (state := {| direction := ascending; key := "file_size" |}) in *.
    assert (Hall : ∀ l, Forall (dated state) l).
    { intros l. apply Forall_forall. by intros e _ ?. }
    assert (Hs : sorted_by (comparator cfg state) (sortItems cfg items state)).
    { apply sortItems_sorted; [done|apply Hall]. }
    destruct (decide (i < j)%nat) as [|Hge]; [done|]. exfalso.
    destruct (decide (i = j)) as [->|Hne]; [simplify_eq; lia|].
    assert (Hba : SortCompare (comparator cfg state) b a <= 0).
    { apply (StronglySorted_lookup _ _ j i b a Hs); [done..|lia]. }
    unfold SortCompare in Hba. rewrite comparator_same_tier in Hba by done.
    simpl in Hba. change (reverse state) with 1 in Hba. lia.
Qed.




(** C5 as stated fails: in [nine_files] the entry [g] stands before the
    entry [i], the comparator returns 0 for them (both were modified at
    the same instant), and [i] stands before [g] in the output. One other
    entry, [f], has a timestamp that does not parse, so the comparator
    returns [NaN] against it. *)
Lemma unparsed_date_breaks_stability :
  ¬ stable_on (H := example_host) default_settings by_date nine_files.
Proof.
  intros Hclaim.
  specialize (Hclaim (early "g") (early "i")).
  assert (Hg : early "g" ∈ nine_files) by (unfold nine_files; repeat constructor).
  assert (Hi : early "i" ∈ nine_files) by (unfold nine_files; repeat constructor).
  specialize (Hclaim Hg Hi eq_refl).
  unfold same_relative_order in Hclaim. vm_compute in Hclaim. discriminate.
Qed.

(** C5, amended. When every timestamp the comparator reads parses (and
    the collation is a consistent comparison, in locale mode), [sortItems]
    is stable: two entries of the input for which the comparator returns
    0 keep their relative order. *)
Theorem stable_when_dates_parse `{Host} (cfg : Settings) (state : SortState)
    (items : list IModel) :
  (useCLocaleSorting cfg = false → consistent_collator localeCompare) →
  Forall (dated state) items →
  stable_on cfg state items.
Proof.
  intros Hlc Hd a b Ha Hb Hab. unfold same_relative_order.
  assert (Da : dated state a) by (by eapply Forall_forall in Hd).
  assert (Db : dated state b) by (by eapply Forall_forall in Hd).
  pose proof (sortItems_class cfg state items a Hlc Hd Da) as Hclass.
  unfold same_class_order in Hclass.
  assert (Hin : ∀ x, x = a ∨ x = b → SortCompare (comparator cfg state) a x = 0).
  { intros x [-> | ->].
    - eapply cmp_refl; [|exact Da]. apply comparator_consistent. auto.
    - unfold SortCompare. by rewrite Hab. }
  rewrite <- (filter_within _ _ (sortItems cfg items state) Hin).
  rewrite <- (filter_within _ _ items Hin).
  by rewrite Hclass.
Qed.

Lemma stable_when_dates_parse_witness :
  Forall (dated (H := example_host) by_date) mixed_listing ∧
  stable_on (H := example_host) notebooks_first by_date mixed_listing.
Proof.
  assert (Hd : Forall (dated (H := example_host) by_date) mixed_listing).
  { unfold mixed_listing. repeat (apply Forall_cons; split; [by intros _|]). by apply Forall_nil. }
  split; [exact Hd|].
  exact (stable_when_dates_parse (H := example_host) notebooks_first by_date mixed_listing
           (λ _, folded_compare_consistent) Hd).
Defined.

(** C6. [sortItems] leaves the array it is given, and every other array,
    as it was, and returns a new array whose elements are those of the
    input, rearranged. *)
Theorem sortItems_copies `{Host} (cfg : Settings) (state : SortState)
    (σ : gmap ref (list IModel)) (items : ref) (l : list IModel) :
  σ !! items = Some l →
  ∃ copy σ',
    sortItems_mem cfg items state σ = Some (copy, σ') ∧
    σ !! copy = None ∧
    σ' !! items = Some l ∧
    (∀ r, r ≠ copy → σ' !! r = σ !! r) ∧
    σ' !! copy = Some (sortItems cfg l state) ∧
    sortItems cfg l state ≡ₚ l.
Proof.
  intros Hitems.
  set (copy := fresh (dom σ)).
  assert (Hfresh : σ !! copy = None).
  { apply not_elem_of_dom. apply is_fresh. }
  assert (Hne : copy ≠ items) by (intros ->; congruence).
  exists copy, (<[copy := sortItems cfg l state]> σ).
  split; [|split; [done|split; [|split; [|split]]]].
  - unfold sortItems_mem, mbind, Mem_bind, array_spread, array_sort_in_place, mret, Mem_ret.
    rewrite Hitems. fold copy. rewrite lookup_insert_eq. by rewrite insert_insert_eq.
  - by rewrite lookup_insert_ne.
  - intros r Hr. by rewrite lookup_insert_ne.
  - by rewrite lookup_insert_eq.
  - apply sortItems_perm.
Qed.

Lemma sortItems_copies_witness :
  one_array !! 1%positive = Some mixed_listing ∧
  ∃ copy σ',
    sortItems_mem (H := example_host) notebooks_first 1%positive by_name one_array
      = Some (copy, σ') ∧
    one_array !! copy = None ∧
    σ' !! 1%positive = Some mixed_listing ∧
    (∀ r, r ≠ copy → σ' !! r = one_array !! r) ∧
    σ' !! copy = Some (sortItems (H := example_host) notebooks_first mixed_listing by_name) ∧
    sortItems (H := example_host) notebooks_first mixed_listing by_name ≡ₚ mixed_listing.
Proof.
  assert (Hin : one_array !! 1%positive = Some mixed_listing) by reflexivity.
  split; [exact Hin|].
  exact (sortItems_copies (H := example_host) notebooks_first by_name one_array 1%positive
           mixed_listing Hin).
Defined.


(** C7 as stated fails: sorting the output of [sortItems] once more moves
    an entry of [nine_files_two_undated], two of whose timestamps do not
    parse.  The nine files sort to a, b, c, e, i, d, f, g, h, where [h]
    (as old as [a]) stands behind [i], [d] and the two undated entries;
    sorted again they give a, b, c, e, h, i, d, f, g.  Binary insertion
    without run detection returns the same two arrays
    ([two_undated_insertion]); with run detection it returns the first
    and leaves it as it is ([two_undated_binary_insertion]). *)
Lemma unparsed_dates_break_idempotence :
  ¬ idempotent_on (H := example_host) default_settings by_date nine_files_two_undated.
Proof. unfold idempotent_on. vm_compute. discriminate. Qed.

(** C7, amended. When every timestamp the comparator reads parses (and
    the collation is a consistent comparison, in locale mode), sorting the
    output of [sortItems] again, under the same sort state and settings,
    returns it unchanged. *)
Theorem idempotent_when_dates_parse `{Host} (cfg : Settings) (state : SortState)
    (items : list IModel) :
  (useCLocaleSorting cfg = false → consistent_collator localeCompare) →
  Forall (dated state) items →
  idempotent_on cfg state items.
Proof.
  intros Hlc Hd. unfold idempotent_on. unfold sortItems at 1.
  eapply Array_sort_fixed.
  - apply comparator_consistent. eauto.
  - by rewrite sortItems_perm.
  - apply sortItems_sorted; auto.
Qed.

Lemma idempotent_when_dates_parse_witness :
  Forall (dated (H := example_host) by_name) mixed_listing ∧
  idempotent_on (H := example_host) notebooks_first by_name mixed_listing.
Proof.
  assert (Hd : Forall (dated (H := example_host) by_name) mixed_listing).
  { apply Forall_forall. intros e _ Hk. discriminate Hk. }
  split; [exact Hd|].
  exact (idempotent_when_dates_parse (H := example_host) notebooks_first by_name mixed_listing
           (λ _, folded_compare_consistent) Hd).
Defined.

(** C8. Flipping [useCLocaleSorting] twice, or [sortNotebooksFirst] twice,
    gives back the settings, and [sortItems] under the settings flipped
    twice returns what it returns under the original ones. *)
Theorem toggle_twice `{Host} (w : World) :
  (∀ registry,
     settings (execute_toggle registry (execute_toggle registry w)) = settings w) ∧
  settings (toggle_sortNotebooksFirst (toggle_sortNotebooksFirst w)) = settings w ∧
  toggle_useCLocaleSorting (toggle_useCLocaleSorting (settings w)) = settings w ∧
  (∀ registry items state,
     sortItems (settings (execute_toggle registry (execute_toggle registry w))) items state =
     sortItems (settings w) items state ∧
     sortItems (settings (toggle_sortNotebooksFirst (toggle_sortNotebooksFirst w))) items state =
     sortItems (settings w) items state).
Proof.
  destruct w as [[nb cl] listings].
  assert (H1 : ∀ registry,
    settings (execute_toggle registry
      (execute_toggle registry {| settings := {| sortNotebooksFirst := nb; useCLocaleSorting := cl |};
                                  browsers := listings |})) =
    {| sortNotebooksFirst := nb; useCLocaleSorting := cl |}).
  { intros [|];
      unfold execute_toggle, on_useCLocaleSorting_changed, resortAllBrowsers,
        toggle_useCLocaleSorting; simpl; by rewrite negb_involutive. }
  assert (H2 :
    settings (toggle_sortNotebooksFirst
      (toggle_sortNotebooksFirst {| settings := {| sortNotebooksFirst := nb; useCLocaleSorting := cl |};
                                    browsers := listings |})) =
    {| sortNotebooksFirst := nb; useCLocaleSorting := cl |}).
  { unfold toggle_sortNotebooksFirst, on_sortNotebooksFirst_changed. simpl.
    by rewrite negb_involutive. }
  split; [exact H1|]. split; [exact H2|]. split.
  - unfold toggle_useCLocaleSorting. simpl. by rewrite negb_involutive.
  - intros registry items state. by rewrite H1, H2.
Qed.

(** C9. On a listing whose model yields no items the patched [sort], for
    every sort state and settings, leaves the listing's [sortedItems]
    empty and calls [sortItems] not once; so does the handler of
    [model.refreshed], which calls the patched [sort] with the listing's
    sort state. *)
Theorem empty_listing_reset `{Host} (cfg : Settings) (p : Patched) :
  model (listing p) = Some [] →
  (∀ state,
     sortedItems (patched_sort cfg state p) = [] ∧
     engine_calls (patched_sort cfg state p) = engine_calls p) ∧
  (∀ state, sortState (listing p) = Some state →
     on_refreshed cfg p = patched_sort cfg state p ∧
     sortedItems (on_refreshed cfg p) = [] ∧
     engine_calls (on_refreshed cfg p) = engine_calls p).
Proof.
  intros Hempty.
  assert (Hsort : ∀ state, sortedItems (patched_sort cfg state p) = [] ∧
                           engine_calls (patched_sort cfg state p) = engine_calls p).
  { intros state. unfold patched_sort. by rewrite Hempty. }
  split; [done|].
  intros state Hstate. unfold on_refreshed. rewrite Hstate. split; [done|apply Hsort].
Qed.

Lemma empty_listing_reset_witness :
  model (listing emptied_listing) = Some [] ∧
  sortedItems (patched_sort (H := example_host) default_settings by_size emptied_listing) = [] ∧
  engine_calls (patched_sort (H := example_host) default_settings by_size emptied_listing) =
  [(mixed_listing, by_name)].
Proof.
  split; [reflexivity|].
  exact (proj1 (empty_listing_reset (H := example_host) default_settings emptied_listing eq_refl)
           by_size).
Defined.


(** C10. For a key that is neither [last_modified] nor [file_size],
    whatever string it is, [sortItems] returns what it returns for the key
    [name], and two entries of one tier are compared by the name comparator
    that [useCLocaleSorting] selects, times the direction multiplier; the
    result is an array, never a failure. *)
Theorem other_keys_sort_by_name `{Host} (cfg : Settings) (d : Direction) (k : string)
    (items : list IModel) :
  k ≠ "last_modified"%string → k ≠ "file_size"%string →
  sortItems cfg items {| direction := d; key := k |} =
  sortItems cfg items {| direction := d; key := "name" |} ∧
  (∀ a b, getPriority cfg a = getPriority cfg b →
     comparator cfg {| direction := d; key := k |} a b =
     num_mul (compareByName cfg a b) (Num (reverse {| direction := d; key := k |}))) ∧
  (∀ a b, compareByName cfg a b =
     if useCLocaleSorting cfg then cLocaleCompare (name a) (name b)
     else Num (localeCompare (name a) (name b))).
Proof.
  intros Hk1 Hk2.
  apply String.eqb_neq in Hk1. apply String.eqb_neq in Hk2.
  split; [|split].
  - unfold sortItems, comparator, key_compare, reverse. simpl. by rewrite Hk1, Hk2.
  - intros a b Htier. rewrite comparator_same_tier by done.
    unfold key_compare. simpl. by rewrite Hk1, Hk2.
  - done.
Qed.

Lemma other_keys_sort_by_name_witness :
  sortItems (H := example_host) notebooks_first mixed_listing
    {| direction := descending; key := "created" |} =
  sortItems (H := example_host) notebooks_first mixed_listing
    {| direction := descending; key := "name" |}.
Proof.
  apply (other_keys_sort_by_name (H := example_host) notebooks_first descending "created"
           mixed_listing); discriminate.
Defined.


(** * Further properties *)

(** ** The comparators *)

(** X1. [cLocaleCompare] is a strict total order on strings: it always
    returns a number (the loop never reads past the end of a string),
    swapping the arguments negates the result, the result is 0 for equal
    strings only, and the order is transitive. *)
Theorem cLocaleCompare_strict_total_order :
  (∀ a b, ∃ r, cLocaleCompare a b = Num r ∧ cLocaleCompare b a = Num (- r) ∧
               (r = 0 ↔ a = b)) ∧
  (∀ a b c r s, cLocaleCompare a b = Num r → cLocaleCompare b c = Num s →
     r <= 0 → s <= 0 →
     ∃ t, cLocaleCompare a c = Num t ∧ t <= 0 ∧ (r < 0 ∨ s < 0 → t < 0)).
Proof.
  split.
  - intros a b. exists (compare_units a b).
    rewrite !cLocaleCompare_units, (compare_units_antisym a b).
    split; [done|]. split; [done|]. apply compare_units_eq.
  - intros a b c r s. rewrite !cLocaleCompare_units. intros [= <-] [= <-] Hr Hs.
    exists (compare_units a c). split; [done|].
    pose proof (compare_units_trans a b c Hr Hs) as Ht. split; [done|].
    intros Hlt.
    destruct (decide (compare_units a c = 0)) as [Hz|]; [|lia].
    apply compare_units_eq in Hz as ->.
    pose proof (compare_units_antisym b c). lia.
Qed.

Section Further.
Context `{Host}.

Lemma dated_other_key (state : SortState) (e : IModel) :
  key state ≠ "last_modified"%string → dated state e.
Proof. intros Hk Hk'. done. Qed.

Lemma dated_direction (d d' : Direction) (k : string) (e : IModel) :
  dated {| direction := d; key := k |} e → dated {| direction := d'; key := k |} e.
Proof. done. Qed.

(** Two entries of the output, the later one first: the comparator does
    not put the later below the earlier. *)
Lemma sortItems_in_order (cfg : Settings) (state : SortState) (items : list IModel)
    (i j : nat) (a b : IModel) :
  (useCLocaleSorting cfg = false → consistent_collator localeCompare) →
  Forall (dated state) items →
  sortItems cfg items state !! i = Some a →
  sortItems cfg items state !! j = Some b →
  (i < j)%nat →
  SortCompare (comparator cfg state) a b <= 0.
Proof.
  intros Hlc Hd Hi Hj Hij.
  apply (StronglySorted_lookup (λ a b, SortCompare (comparator cfg state) a b <= 0)
           (sortItems cfg items state) i j a b); [|done..].
  apply sortItems_sorted; auto.
Qed.

Lemma sortItems_dated (cfg : Settings) (state : SortState) (items : list IModel)
    (i : nat) (a : IModel) :
  Forall (dated state) items → sortItems cfg items state !! i = Some a → dated state a.
Proof.
  intros Hd Hi. rewrite <- (sortItems_perm cfg state items) in Hd.
  eapply Forall_forall; [exact Hd|]. by eapply list_elem_of_lookup_2.
Qed.

End Further.

(** X2. In byte-order mode, sorting by name ascending puts the classes of
    first characters in the order [.], [0-9], [A-Z], [_], [a-z]: of two
    names that start in different classes the one in the earlier class
    compares below the other, and of two entries of one tier it comes
    first in the output. *)
Theorem ascii_classes_in_order `{Host} (cfg : Settings) (items : list IModel) :
  useCLocaleSorting cfg = true →
  (∀ x y a b cx cy, char_class x = Some cx → char_class y = Some cy → cx < cy →
     ∃ r, cLocaleCompare (x :: a) (y :: b) = Num r ∧ r < 0) ∧
  (∀ i j e f x y cx cy,
     sortItems cfg items by_name !! i = Some e →
     sortItems cfg items by_name !! j = Some f →
     getPriority cfg e = getPriority cfg f →
     name e !! 0%nat = Some x → name f !! 0%nat = Some y →
     char_class x = Some cx → char_class y = Some cy → cx < cy →
     (i < j)%nat).
Proof.
  intros Hc.
  assert (Hclass : ∀ x y cx cy,
    char_class x = Some cx → char_class y = Some cy → cx < cy → x < y).
  { intros x y cx cy Hx Hy Hlt. unfold char_class in *.
    repeat case_match; simplify_eq; lia. }
  assert (Hcmp : ∀ x y a b, x < y → compare_units (x :: a) (y :: b) = x - y).
  { intros x y a b Hlt. simpl. destruct (Z.eqb_spec x y); [lia|done]. }
  split.
  - intros x y a b cx cy Hx Hy Hlt. exists (x - y).
    rewrite cLocaleCompare_units, Hcmp by eauto. split; [done|].
    specialize (Hclass x y cx cy Hx Hy Hlt). lia.
  - intros i j e f x y cx cy Hi Hj Htier Hx Hy Hcx Hcy Hlt.
    specialize (Hclass x y cx cy Hcx Hcy Hlt).
    destruct (name e) as [|x' ne] eqn:He; [done|].
    destruct (name f) as [|y' nf] eqn:Hf; [done|].
    simpl in Hx, Hy. simplify_eq.
    destruct (decide (i < j)%nat) as [|Hge]; [done|].
    destruct (decide (i = j)) as [->|Hne].
    { rewrite Hi in Hj. simplify_eq. rewrite He in Hf. simplify_eq. lia. }
    assert (Hd : Forall (dated by_name) items).
    { apply Forall_forall. intros ? _. by apply dated_other_key. }
    assert (Hord : SortCompare (comparator cfg by_name) f e <= 0).
    { apply (sortItems_in_order cfg by_name items j i); [by rewrite Hc|done..|lia]. }
    unfold SortCompare in Hord. rewrite comparator_same_tier in Hord by done.
    unfold key_compare, compareByName in Hord. simpl in Hord. rewrite Hc in Hord.
    rewrite cLocaleCompare_units, Hf, He in Hord.
    assert (Hyx : compare_units (y :: nf) (x :: ne) = - compare_units (x :: ne) (y :: nf))
      by apply compare_units_antisym.
    rewrite Hyx, Hcmp in Hord by done.
    change (reverse by_name) with 1 in Hord. simpl in Hord. lia.
Qed.

Lemma ascii_classes_in_order_witness :
  useCLocaleSorting default_settings = true ∧
  (∀ x y a b cx cy, char_class x = Some cx → char_class y = Some cy → cx < cy →
     ∃ r, cLocaleCompare (x :: a) (y :: b) = Num r ∧ r < 0) ∧
  (∀ i j e f x y cx cy,
     sortItems (H := example_host) default_settings ten_files by_name !! i = Some e →
     sortItems (H := example_host) default_settings ten_files by_name !! j = Some f →
     getPriority default_settings e = getPriority default_settings f →
     name e !! 0%nat = Some x → name f !! 0%nat = Some y →
     char_class x = Some cx → char_class y = Some cy → cx < cy →
     (i < j)%nat).
Proof.
  split; [reflexivity|].
  exact (ascii_classes_in_order (H := example_host) default_settings ten_files eq_refl).
Defined.

(** X3. The comparator handed to [sort] returns [NaN] in one case only:
    the key is [last_modified], the two entries are in the same tier, and
    the timestamp of one of them does not parse. *)
Theorem comparator_NaN_only_for_unparsed_dates `{Host} (cfg : Settings)
    (state : SortState) (a b : IModel) :
  comparator cfg state a b = NaN ↔
  getPriority cfg a = getPriority cfg b ∧
  key state = "last_modified"%string ∧
  (Date_getTime (last_modified a) = NaN ∨ Date_getTime (last_modified b) = NaN).
Proof.
  unfold comparator. simpl.
  destruct (Z.eqb_spec (getPriority cfg a) (getPriority cfg b)) as [Heq|Hne]; simpl.
  - unfold key_compare, compareByName, defaultLocaleCompare.
    destruct (String.eqb_spec (key state) "last_modified") as [Hk|Hk].
    + destruct (Date_getTime (last_modified a)), (Date_getTime (last_modified b));
        simpl; split; try done; try (intros (_ & _ & [|]); done); by auto.
    + split; [|by intros (_ & ? & _)].
      destruct (String.eqb (key state) "file_size"); [done|].
      destruct (useCLocaleSorting cfg); [|done].
      by rewrite cLocaleCompare_units.
  - split; [done|]. by intros [? _].
Qed.

(** X4. When every timestamp the comparator reads parses (and the
    collation is a consistent comparison, in locale mode), the output of
    [sortItems] is in order: for an entry and any later entry the
    comparator returns a number that is not positive. *)
Theorem sortItems_output_in_order `{Host} (cfg : Settings) (state : SortState)
    (items : list IModel) :
  (useCLocaleSorting cfg = false → consistent_collator localeCompare) →
  Forall (dated state) items →
  ∀ i j a b,
    sortItems cfg items state !! i = Some a →
    sortItems cfg items state !! j = Some b →
    (i < j)%nat →
    ∃ r, comparator cfg state a b = Num r ∧ r <= 0.
Proof.
  intros Hlc Hd i j a b Hi Hj Hij.
  exists (SortCompare (comparator cfg state) a b). split.
  - apply comparator_dated; by eapply sortItems_dated.
  - by eapply sortItems_in_order.
Qed.

Lemma sortItems_output_in_order_witness :
  Forall (dated (H := example_host) by_date) mixed_listing ∧
  ∀ i j a b,
    sortItems (H := example_host) notebooks_first mixed_listing by_date !! i = Some a →
    sortItems (H := example_host) notebooks_first mixed_listing by_date !! j = Some b →
    (i < j)%nat →
    ∃ r, comparator (H := example_host) notebooks_first by_date a b = Num r ∧ r <= 0.
Proof.
  assert (Hd : Forall (dated (H := example_host) by_date) mixed_listing).
  { unfold mixed_listing. repeat (apply Forall_cons; split; [by intros _|]). by apply Forall_nil. }
  split; [exact Hd|].
  exact (sortItems_output_in_order (H := example_host) notebooks_first by_date mixed_listing
           (λ _, folded_compare_consistent) Hd).
Defined.

(** X5. The direction is applied inside a tier: when the key comparison
    puts [a] below [b] and both are in the same tier, [a] stands before
    [b] in the ascending output and after [b] in the descending output
    (timestamps parse, and the collation is consistent in locale mode). *)
Theorem direction_reverses_within_a_tier `{Host} (cfg : Settings) (k : string)
    (items : list IModel) (a b : IModel) (r : Z) :
  (useCLocaleSorting cfg = false → consistent_collator localeCompare) →
  Forall (dated {| direction := ascending; key := k |}) items →
  getPriority cfg a = getPriority cfg b →
  key_compare cfg {| direction := ascending; key := k |} a b = Num r → r < 0 →
  (∀ i j,
     sortItems cfg items {| direction := ascending; key := k |} !! i = Some a →
     sortItems cfg items {| direction := ascending; key := k |} !! j = Some b →
     (i < j)%nat) ∧
  (∀ i j,
     sortItems cfg items {| direction := descending; key := k |} !! i = Some a →
     sortItems cfg items {| direction := descending; key := k |} !! j = Some b →
     (j < i)%nat).
Proof.
  intros Hlc Hd Htier Hkey Hr.
  set (asc := {| direction := ascending; key := k |}) in *.
  set (desc := {| direction := descending; key := k |}).
  assert (Hd' : Forall (dated desc) items).
  { eapply Forall_impl; [exact Hd|]. intros e. apply dated_direction. }
  assert (Hcons : consistent_on (dated asc) (key_compare_Z cfg asc)).
  { apply key_compare_Z_consistent. auto. }
  assert (Hkd : ∀ e f, key_compare_Z cfg desc e f = key_compare_Z cfg asc e f) by done.
  assert (Hfacts : ∀ st l i j, (st = asc ∨ st = desc) → Forall (dated st) l →
            sortItems cfg l st !! i = Some a → sortItems cfg l st !! j = Some b →
            dated asc a ∧ dated asc b ∧ key_compare_Z cfg asc a b = r ∧ i ≠ j).
  { intros st l i j Hst Hl Hi Hj.
    assert (Da : dated asc a).
    { destruct Hst as [-> | ->]; [by eapply sortItems_dated|].
      eapply (dated_direction descending). by eapply sortItems_dated. }
    assert (Db : dated asc b).
    { destruct Hst as [-> | ->]; [by eapply sortItems_dated|].
      eapply (dated_direction descending). by eapply sortItems_dated. }
    pose proof (key_compare_dated cfg asc a b Da Db) as Hz.
    rewrite Hkey in Hz. simplify_eq.
    do 3 (split; [done|]). intros ->. rewrite Hi in Hj. simplify_eq.
    pose proof (consistent_antisym _ _ Hcons b b Db Db). lia. }
  split.
  - intros i j Hi Hj.
    destruct (Hfacts asc items i j (or_introl eq_refl) Hd Hi Hj) as (Da & Db & Hz & Hne).
    destruct (decide (i < j)%nat) as [|Hge]; [done|].
    assert (Hord : SortCompare (comparator cfg asc) b a <= 0).
    { apply (sortItems_in_order cfg asc items j i); [done..|lia]. }
    rewrite SortCompare_dated in Hord by done.
    rewrite Htier, Z.eqb_refl in Hord. simpl in Hord.
    change (reverse asc) with 1 in Hord.
    pose proof (consistent_antisym _ _ Hcons a b Da Db). lia.
  - intros i j Hi Hj.
    destruct (Hfacts desc items i j (or_intror eq_refl) Hd' Hi Hj) as (Da & Db & Hz & Hne).
    destruct (decide (j < i)%nat) as [|Hge]; [done|].
    assert (Hord : SortCompare (comparator cfg desc) a b <= 0).
    { apply (sortItems_in_order cfg desc items i j); [done..|lia]. }
    rewrite SortCompare_dated in Hord by (by apply (dated_direction ascending)).
    rewrite Htier, Z.eqb_refl in Hord. simpl in Hord.
    change (reverse desc) with (-1) in Hord. rewrite Hkd in Hord. lia.
Qed.

Lemma direction_reverses_within_a_tier_witness :
  Forall (dated (H := example_host) {| direction := ascending; key := "last_modified" |})
    mixed_listing ∧
  getPriority notebooks_first older_notebook = getPriority notebooks_first newer_notebook ∧
  key_compare (H := example_host) notebooks_first
    {| direction := ascending; key := "last_modified" |} older_notebook newer_notebook
    = Num (-1) ∧
  -1 < 0 ∧
  (∀ i j,
     sortItems (H := example_host) notebooks_first mixed_listing
       {| direction := ascending; key := "last_modified" |} !! i = Some older_notebook →
     sortItems (H := example_host) notebooks_first mixed_listing
       {| direction := ascending; key := "last_modified" |} !! j = Some newer_notebook →
     (i < j)%nat) ∧
  (∀ i j,
     sortItems (H := example_host) notebooks_first mixed_listing
       {| direction := descending; key := "last_modified" |} !! i = Some older_notebook →
     sortItems (H := example_host) notebooks_first mixed_listing
       {| direction := descending; key := "last_modified" |} !! j = Some newer_notebook →
     (j < i)%nat).
Proof.
  assert (Hd : Forall (dated (H := example_host)
                 {| direction := ascending; key := "last_modified" |}) mixed_listing).
  { unfold mixed_listing. repeat (apply Forall_cons; split; [by intros _|]). by apply Forall_nil. }
  split; [exact Hd|]. split; [reflexivity|]. split; [reflexivity|]. split; [lia|].
  exact (direction_reverses_within_a_tier (H := example_host) notebooks_first "last_modified"
           mixed_listing older_notebook newer_notebook (-1)
           (λ _, folded_compare_consistent) Hd eq_refl eq_refl eq_refl).
Defined.

(** ** The patched listing *)

Section PatchFacts.
Context `{Host}.

Lemma patched_sort_items (cfg : Settings) (state : SortState) (p : Patched)
    (items : list IModel) :
  model (listing p) = Some items → items ≠ [] →
  patched_sort cfg state p =
  {| listing := update (set_sortState state
                  (set_sortedItems (sortItems cfg items state) (listing p)));
     customSortedItems := sortItems cfg items state;
     engine_calls := engine_calls p ++ [(items, state)] |}.
Proof.
  intros Hm Hne. unfold patched_sort. rewrite Hm.
  destruct items as [|e items]; [done|]. done.
Qed.

Lemma patched_sort_calls (cfg : Settings) (state : SortState) (p : Patched) :
  (engine_calls (patched_sort cfg state p) = engine_calls p ∧
   (customSortedItems (patched_sort cfg state p) = customSortedItems p ∨
    customSortedItems (patched_sort cfg state p) = []))
  ∨ ∃ items, items ≠ [] ∧
      engine_calls (patched_sort cfg state p) = engine_calls p ++ [(items, state)] ∧
      customSortedItems (patched_sort cfg state p) = sortItems cfg items state.
Proof.
  unfold patched_sort. destruct (model (listing p)) as [items|]; [|by left; split; [|left]].
  destruct items as [|e items]; simpl; [by left; split; [|right]|].
  right. exists (e :: items). done.
Qed.

Lemma patched_sort_shows (cfg : Settings) (state : SortState) (p : Patched) :
  shows_engine_output cfg p → shows_engine_output cfg (patched_sort cfg state p).
Proof.
  intros [Hcalls Hshown]. unfold shows_engine_output, sortedItems in *.
  destruct (patched_sort_calls cfg state p) as [[-> [-> | ->]] | (items & Hne & -> & ->)].
  - done.
  - split; [done|by left].
  - split.
    + apply Forall_app. split; [done|]. by repeat constructor.
    + right. exists items, state. by rewrite last_snoc.
Qed.

Lemma handle_shows (cfg : Settings) (p : Patched) (e : ListingEvent) :
  shows_engine_output cfg p → shows_engine_output cfg (handle cfg p e).
Proof.
  intros Hp. destruct e as [state| | |m]; simpl.
  - by apply patched_sort_shows.
  - unfold on_refreshed. destruct (sortState (listing p)); [by apply patched_sort_shows|done].
  - unfold resortListing. destruct (sortState (listing p)); [by apply patched_sort_shows|done].
  - done.
Qed.

End PatchFacts.

(** X6. A listing with items, once sorted by the patched [sort], shows
    what [sortItems] returns for the items of its model, and sorting it
    again (by [resortListing], or when the model signals [refreshed])
    shows the same order: the patch sorts the model's items each time, not
    what it showed before, so that this holds for every input. *)
Theorem resort_shows_the_same_order `{Host} (cfg : Settings) (state : SortState)
    (p : Patched) (items : list IModel) :
  model (listing p) = Some items → items ≠ [] →
  sortedItems (patched_sort cfg state p) = sortItems cfg items state ∧
  _sortedItems (listing (patched_sort cfg state p)) = sortItems cfg items state ∧
  sortState (listing (patched_sort cfg state p)) = Some state ∧
  model (listing (patched_sort cfg state p)) = Some items ∧
  updates (listing (patched_sort cfg state p)) = S (updates (listing p)) ∧
  sortedItems (resortListing cfg (patched_sort cfg state p)) = sortItems cfg items state ∧
  sortedItems (on_refreshed cfg (patched_sort cfg state p)) = sortItems cfg items state ∧
  engine_calls (resortListing cfg (patched_sort cfg state p)) =
    engine_calls p ++ [(items, state); (items, state)].
Proof.
  intros Hm Hne.
  rewrite (patched_sort_items cfg state p items Hm Hne).
  set (p1 := {| listing := _ |}).
  assert (Hm1 : model (listing p1) = Some items) by done.
  do 5 (split; [done|]).
  unfold resortListing, on_refreshed. simpl.
  rewrite (patched_sort_items cfg state p1 items Hm1 Hne). simpl.
  do 2 (split; [done|]). by rewrite <- app_assoc.
Qed.

Lemma resort_shows_the_same_order_witness :
  model (listing unsorted_patch) = Some partly_dated ∧
  partly_dated ≠ [] ∧
  sortedItems (resortListing (H := example_host) default_settings
     (patched_sort (H := example_host) default_settings by_date unsorted_patch))
    = sortItems (H := example_host) default_settings partly_dated by_date.
Proof.
  assert (Hm : model (listing unsorted_patch) = Some partly_dated) by reflexivity.
  assert (Hne : partly_dated ≠ []) by discriminate.
  split; [exact Hm|]. split; [exact Hne|].
  exact (proj1 (proj2 (proj2 (proj2 (proj2 (proj2
    (resort_shows_the_same_order (H := example_host) default_settings by_date
       unsorted_patch partly_dated Hm Hne))))))).
Defined.

(** X7. Whatever happens to a patched listing (calls of [sort], refreshes
    of the model, re-sorts, changes of the model's items), [sortItems] is
    never called on an empty array, and what the [sortedItems] getter
    returns is either nothing or what the last call of [sortItems]
    returned. *)
Theorem shown_items_come_from_sortItems `{Host} (cfg : Settings) (l : DirListing)
    (es : list ListingEvent) :
  Forall (λ call, call.1 ≠ []) (engine_calls (run cfg (patchListing cfg l) es)) ∧
  (sortedItems (run cfg (patchListing cfg l) es) = [] ∨
   ∃ items state,
     last (engine_calls (run cfg (patchListing cfg l) es)) = Some (items, state) ∧
     sortedItems (run cfg (patchListing cfg l) es) = sortItems cfg items state).
Proof.
  change (shows_engine_output cfg (run cfg (patchListing cfg l) es)).
  assert (Hstart : shows_engine_output cfg (patchListing cfg l)).
  { assert (H0 : shows_engine_output cfg
                   {| listing := l; customSortedItems := []; engine_calls := [] |}).
    { split; [constructor|by left]. }
    unfold patchListing. destruct (sortState l); [by apply patched_sort_shows|done]. }
  revert Hstart. generalize (patchListing cfg l). unfold run.
  induction es as [|e es IH]; intros p Hp; [done|].
  simpl. by apply IH, handle_shows.
Qed.

(** ** The settings handlers *)

(** X8. When the setting [useCLocaleSorting] changes, the flag takes the
    new value ([true] when the registry holds none), the other flag is
    kept, and every browser is sorted again: a listing with a sort state
    and items then shows what [sortItems] returns under the new settings.
    The toggle command does the same with the negated flag, with or
    without a setting registry. *)
Theorem locale_flag_change_resorts_every_browser `{Host} (composite : option bool)
    (w : World) :
  useCLocaleSorting (settings (on_useCLocaleSorting_changed composite w))
    = default true composite ∧
  sortNotebooksFirst (settings (on_useCLocaleSorting_changed composite w))
    = sortNotebooksFirst (settings w) ∧
  (∀ i p, browsers w !! i = Some p →
     browsers (on_useCLocaleSorting_changed composite w) !! i =
     Some (resortListing (settings (on_useCLocaleSorting_changed composite w)) p)) ∧
  (∀ i p state items,
     browsers w !! i = Some p →
     sortState (listing p) = Some state → model (listing p) = Some items → items ≠ [] →
     ∃ p', browsers (on_useCLocaleSorting_changed composite w) !! i = Some p' ∧
           sortedItems p' =
           sortItems (settings (on_useCLocaleSorting_changed composite w)) items state) ∧
  (∀ registry,
     execute_toggle registry w =
     on_useCLocaleSorting_changed (Some (negb (useCLocaleSorting (settings w)))) w).
Proof.
  assert (Hi : ∀ i p, browsers w !! i = Some p →
     browsers (on_useCLocaleSorting_changed composite w) !! i =
     Some (resortListing (settings (on_useCLocaleSorting_changed composite w)) p)).
  { intros i p Hp. unfold on_useCLocaleSorting_changed, resortAllBrowsers. simpl.
    by rewrite list_lookup_fmap, Hp. }
  split; [done|]. split; [done|]. split; [exact Hi|]. split.
  - intros i p state items Hp Hst Hm Hne. eexists. split; [by apply Hi|].
    unfold resortListing. rewrite Hst.
    by rewrite (patched_sort_items _ state p items Hm Hne).
  - by intros [|].
Qed.

(** X9. When the setting [sortNotebooksFirst] changes, the flag takes the
    new value ([false] when the registry holds none) and nothing is sorted:
    every browser shows what it showed.  The next refresh of a listing
    with a sort state and items brings the order under the new settings. *)
Theorem notebooks_flag_change_waits_for_the_next_sort `{Host} (composite : option bool)
    (w : World) :
  sortNotebooksFirst (settings (on_sortNotebooksFirst_changed composite w))
    = default false composite ∧
  useCLocaleSorting (settings (on_sortNotebooksFirst_changed composite w))
    = useCLocaleSorting (settings w) ∧
  browsers (on_sortNotebooksFirst_changed composite w) = browsers w ∧
  (∀ p state items,
     p ∈ browsers (on_sortNotebooksFirst_changed composite w) →
     sortState (listing p) = Some state → model (listing p) = Some items → items ≠ [] →
     sortedItems (on_refreshed (settings (on_sortNotebooksFirst_changed composite w)) p) =
     sortItems (settings (on_sortNotebooksFirst_changed composite w)) items state).
Proof.
  do 3 (split; [done|]).
  intros p state items _ Hst Hm Hne. unfold on_refreshed. rewrite Hst.
  by rewrite (patched_sort_items _ state p items Hm Hne).
Qed.

(** ** Listings by reference *)

Section PluginFacts.
Context `{Host}.

Lemma patchFileBrowser_lookup (cfg : Settings) (browser : option ref)
    (σ : gmap ref Plugin.ListingObject) (r : ref) :
  Plugin.patchFileBrowser cfg browser σ !! r =
  match σ !! r with
  | Some (Plugin.Unpatched l) =>
      if decide (browser = Some r)
      then Some (Plugin.WithPatch (patchListing cfg l))
      else Some (Plugin.Unpatched l)
  | o => o
  end.
Proof.
  unfold Plugin.patchFileBrowser, Plugin.patchListing.
  destruct browser as [r'|]; [|by repeat case_match].
  destruct (decide (r' = r)) as [->|Hne].
  - destruct (σ !! r) as [[l|p]|] eqn:Hr; rewrite ?Hr; [|done..].
    rewrite lookup_insert_eq. by rewrite decide_True.
  - destruct (σ !! r') as [[l'|p']|] eqn:Hr'.
    + rewrite lookup_insert_ne by done.
      destruct (σ !! r) as [[l|p]|]; [|done..]. rewrite decide_False; [done|congruence].
    + destruct (σ !! r) as [[l|p]|]; [|done..]. rewrite decide_False; [done|congruence].
    + destruct (σ !! r) as [[l|p]|]; [|done..]. rewrite decide_False; [done|congruence].
Qed.

Lemma restored_lookup (cfg : Settings) (tracker : list (option ref))
    (σ : gmap ref Plugin.ListingObject) (r : ref) :
  Plugin.restored cfg tracker σ !! r =
  match σ !! r with
  | Some (Plugin.Unpatched l) =>
      if decide (Some r ∈ tracker)
      then Some (Plugin.WithPatch (patchListing cfg l))
      else Some (Plugin.Unpatched l)
  | o => o
  end.
Proof.
  unfold Plugin.restored. revert σ.
  induction tracker as [|b tracker IH]; intros σ; cbn [foldl].
  - destruct (σ !! r) as [[l|p]|]; [|done..].
    destruct (decide (Some r ∈ [])) as [Hin|]; [by apply elem_of_nil in Hin|done].
  - rewrite IH, patchFileBrowser_lookup.
    destruct (σ !! r) as [[l|p]|]; [|done..].
    destruct (decide (b = Some r)) as [->|Hb].
    + rewrite decide_True; [done|]. by left.
    + destruct (decide (Some r ∈ tracker)) as [Hin|Hnin].
      * rewrite decide_True; [done|]. by right.
      * rewrite decide_False; [done|]. intros [?|?]%elem_of_cons; congruence.
Qed.

Lemma elem_of_patchedListings (σ : gmap ref Plugin.ListingObject) (r : ref) :
  r ∈ Plugin.patchedListings σ ↔ ∃ p, σ !! r = Some (Plugin.WithPatch p).
Proof.
  unfold Plugin.patchedListings. rewrite elem_of_dom. unfold is_Some.
  split.
  - intros [o [Hr Hp]%map_lookup_filter_Some]. simpl in Hp.
    destruct o as [l|p]; [done|]. by exists p.
  - intros [p Hr]. exists (Plugin.WithPatch p). by apply map_lookup_filter_Some.
Qed.

Lemma resortListing_lookup (cfg : Settings) (listing : option ref)
    (σ : gmap ref Plugin.ListingObject) (r : ref) :
  listing ≠ Some r → Plugin.resortListing cfg listing σ !! r = σ !! r.
Proof.
  intros Hne. unfold Plugin.resortListing.
  destruct listing as [r'|]; [|done].
  destruct (σ !! r') as [o|]; [|done].
  destruct (sortState (Plugin.fields o)); [|done].
  rewrite lookup_insert_ne; [done|congruence].
Qed.

Lemma resortAllBrowsers_untracked (cfg : Settings) (tracker : list (option ref))
    (σ : gmap ref Plugin.ListingObject) (r : ref) :
  Some r ∉ tracker → Plugin.resortAllBrowsers cfg tracker σ !! r = σ !! r.
Proof.
  unfold Plugin.resortAllBrowsers. revert σ.
  induction tracker as [|b tracker IH]; intros σ Hnin; [done|].
  simpl. apply not_elem_of_cons in Hnin as [Hb Hnin].
  rewrite IH by done. by apply resortListing_lookup.
Qed.

End PluginFacts.

(** X10. [patchFileBrowser] patches a listing once: on a browser whose
    listing carries the patch it changes nothing (what the listing shows
    is not reset), whatever the settings have become, so that patching
    twice is patching once; a listing without the patch gets it and joins
    [patchedListings]; no other listing is touched. *)
Theorem patchFileBrowser_patches_once `{Host} (cfg cfg' : Settings)
    (browser : option ref) (σ : gmap ref Plugin.ListingObject) :
  Plugin.patchFileBrowser cfg' browser (Plugin.patchFileBrowser cfg browser σ) =
  Plugin.patchFileBrowser cfg browser σ ∧
  (∀ r, browser = Some r → r ∈ Plugin.patchedListings σ →
     Plugin.patchFileBrowser cfg browser σ = σ) ∧
  (∀ r l, browser = Some r → σ !! r = Some (Plugin.Unpatched l) →
     Plugin.patchFileBrowser cfg browser σ !! r =
       Some (Plugin.WithPatch (patchListing cfg l)) ∧
     r ∈ Plugin.patchedListings (Plugin.patchFileBrowser cfg browser σ)) ∧
  (∀ r, browser ≠ Some r → Plugin.patchFileBrowser cfg browser σ !! r = σ !! r) ∧
  (browser = None → Plugin.patchFileBrowser cfg browser σ = σ).
Proof.
  split; [|split; [|split; [|split]]].
  - apply map_eq. intros r. rewrite !patchFileBrowser_lookup.
    destruct (σ !! r) as [[l|p]|]; [|done..].
    by destruct (decide (browser = Some r)).
  - intros r -> [p Hp]%elem_of_patchedListings.
    unfold Plugin.patchFileBrowser, Plugin.patchListing. by rewrite Hp.
  - intros r l -> Hr.
    assert (Hl : Plugin.patchFileBrowser cfg (Some r) σ !! r =
                 Some (Plugin.WithPatch (patchListing cfg l))).
    { rewrite patchFileBrowser_lookup, Hr. by rewrite decide_True. }
    split; [done|]. apply elem_of_patchedListings. eauto.
  - intros r Hne. rewrite patchFileBrowser_lookup.
    destruct (σ !! r) as [[l|p]|]; [|done..]. by rewrite decide_False.
  - by intros ->.
Qed.

(** X11. When the application is restored, every listing of a tracked
    browser carries the patch afterwards: a listing that had none gets
    the patch once, however many browsers share it, a listing that had it
    keeps it as it is, and the listings of no tracked browser are left
    alone. *)
Theorem restored_patches_every_tracked_listing `{Host} (cfg : Settings)
    (tracker : list (option ref)) (σ : gmap ref Plugin.ListingObject) (r : ref) :
  (∀ l, Some r ∈ tracker → σ !! r = Some (Plugin.Unpatched l) →
     Plugin.restored cfg tracker σ !! r = Some (Plugin.WithPatch (patchListing cfg l))) ∧
  (∀ p, σ !! r = Some (Plugin.WithPatch p) →
     Plugin.restored cfg tracker σ !! r = Some (Plugin.WithPatch p)) ∧
  (Some r ∈ tracker → is_Some (σ !! r) →
     r ∈ Plugin.patchedListings (Plugin.restored cfg tracker σ)) ∧
  (Some r ∉ tracker → Plugin.restored cfg tracker σ !! r = σ !! r) ∧
  Plugin.restored cfg tracker (Plugin.restored cfg tracker σ) = Plugin.restored cfg tracker σ.
Proof.
  split; [|split; [|split; [|split]]].
  - intros l Hin Hr. rewrite restored_lookup, Hr. by rewrite decide_True.
  - intros p Hr. by rewrite restored_lookup, Hr.
  - intros Hin [o Hr]. apply elem_of_patchedListings.
    rewrite restored_lookup, Hr. destruct o as [l|p]; [|eauto].
    rewrite decide_True by done. eauto.
  - intros Hnin. rewrite restored_lookup.
    destruct (σ !! r) as [[l|p]|]; [|done..]. by rewrite decide_False.
  - apply map_eq. intros r'. rewrite !restored_lookup.
    destruct (σ !! r') as [[l|p]|]; [|done..].
    destruct (decide (Some r' ∈ tracker)); done.
Qed.

(** X12. [resortAllBrowsers] leaves the listings of no tracked browser
    alone, and with no browser it does nothing.  When the tracked browsers
    have listings of their own, a listing that carries the patch is sorted
    once, by [resortListing], and one that does not is sorted by the
    host's own [sort]. *)
Theorem resortAllBrowsers_sorts_tracked_listings `{Host} (cfg : Settings)
    (tracker : list (option ref)) (σ : gmap ref Plugin.ListingObject) (r : ref) :
  Plugin.resortAllBrowsers cfg [] σ = σ ∧
  (Some r ∉ tracker → Plugin.resortAllBrowsers cfg tracker σ !! r = σ !! r) ∧
  (NoDup tracker → Some r ∈ tracker →
     (∀ p, σ !! r = Some (Plugin.WithPatch p) →
        Plugin.resortAllBrowsers cfg tracker σ !! r =
        Some (Plugin.WithPatch (resortListing cfg p))) ∧
     (∀ l state, σ !! r = Some (Plugin.Unpatched l) → sortState l = Some state →
        Plugin.resortAllBrowsers cfg tracker σ !! r =
        Some (Plugin.Unpatched (originalSort state l)))).
Proof.
  split; [done|]. split; [apply resortAllBrowsers_untracked|].
  intros Hnd Hin.
  assert (Hone : ∀ o, σ !! r = Some o →
    Plugin.resortAllBrowsers cfg tracker σ !! r =
    Some (match sortState (Plugin.fields o) with
          | Some state => Plugin.sort cfg state o
          | None => o
          end)).
  { revert σ. unfold Plugin.resortAllBrowsers.
    induction tracker as [|b tracker IH]; intros σ o Hr; [by apply elem_of_nil in Hin|].
    apply NoDup_cons in Hnd as [Hb Hnd]. simpl.
    apply elem_of_cons in Hin as [<-|Hin].
    - pose proof (resortAllBrowsers_untracked cfg tracker
                    (Plugin.resortListing cfg (Some r) σ) r Hb) as Hrest.
      unfold Plugin.resortAllBrowsers in Hrest. rewrite Hrest.
      unfold Plugin.resortListing. rewrite Hr.
      destruct (sortState (Plugin.fields o)); [by rewrite lookup_insert_eq|done].
    - apply IH; [done..|].
      rewrite resortListing_lookup; [done|]. intros ->. done. }
  split.
  - intros p Hr. rewrite (Hone _ Hr). simpl. unfold resortListing.
    by destruct (sortState (listing p)).
  - intros l state Hr Hst. rewrite (Hone _ Hr). simpl. by rewrite Hst.
Qed.

Lemma resortAllBrowsers_sorts_tracked_listings_witness :
  NoDup [Some 1%positive; None; Some 2%positive] ∧
  Some 1%positive ∈ [Some 1%positive; None; Some 2%positive] ∧
  ∀ l state, three_listings !! 1%positive = Some (Plugin.Unpatched l) →
    sortState l = Some state →
    Plugin.resortAllBrowsers (H := example_host) default_settings
      [Some 1%positive; None; Some 2%positive] three_listings !! 1%positive =
    Some (Plugin.Unpatched (originalSort (Host := example_host) state l)).
Proof.
  assert (Hnd : NoDup [Some 1%positive; None; Some 2%positive]).
  { repeat (apply NoDup_cons; split; [by rewrite ?elem_of_cons, ?elem_of_nil; intros [?|[?|?]] || intros [?|?] || intros ?|]).
    apply NoDup_nil_2. }
  assert (Hin : Some 1%positive ∈ [Some 1%positive; None; Some 2%positive]) by by left.
  split; [exact Hnd|]. split; [exact Hin|].
  exact (proj2 (proj2 (proj2 (resortAllBrowsers_sorts_tracked_listings (H := example_host)
           default_settings [Some 1%positive; None; Some 2%positive] three_listings
           1%positive)) Hnd Hin)).
Defined.

(** ** The earlier revision *)

Section EarlierFacts.
Context `{Host}.

Lemma sortItems_earlier_settings (cfg : Settings) (state : SortState) (items : list IModel) :
  Earlier.sortItems state (sortNotebooksFirst cfg) (useCLocaleSorting cfg) items =
  sortItems cfg items state.
Proof. rewrite sortItems_earlier_eq. by destruct cfg. Qed.

Lemma earlier_resort_lookup (w : EarlierPatch.World) (i : nat) (l : DirListing)
    (state : SortState) (items : list IModel) :
  EarlierPatch.patchedBrowsers w !! i = Some (Some l) →
  sortState l = Some state → model l = Some items →
  ∃ l', EarlierPatch.patchedBrowsers (EarlierPatch.resortAllBrowsers w) !! i = Some (Some l') ∧
        _sortedItems l' = sortItems (EarlierPatch.settings w) items state ∧
        sortState l' = Some state.
Proof.
  intros Hi Hst Hm. unfold EarlierPatch.resortAllBrowsers. simpl.
  rewrite list_lookup_fmap, Hi. simpl. rewrite Hst. eexists. split; [done|].
  unfold EarlierPatch.sort. rewrite Hm. simpl.
  by rewrite sortItems_earlier_settings.
Qed.

End EarlierFacts.

(** X13. The earlier revision of [sortItems], which takes the two
    settings as arguments and sorts in one of three branches, returns what
    the current [sortItems] returns under the same settings, for every
    input and sort state; its [getPriority] and [compareByName] are those
    of the current revision. *)
Theorem earlier_sortItems_returns_the_same `{Host} (state : SortState)
    (sortNotebooksFirst useCLocale : bool) (items : list IModel) :
  Earlier.sortItems state sortNotebooksFirst useCLocale items =
  sortItems {| sortNotebooksFirst := sortNotebooksFirst;
               useCLocaleSorting := useCLocale |} items state ∧
  (∀ e, Earlier.getPriority sortNotebooksFirst e =
        getPriority {| sortNotebooksFirst := sortNotebooksFirst;
                       useCLocaleSorting := useCLocale |} e) ∧
  (∀ a b, Earlier.compareByName useCLocale a b =
          compareByName {| sortNotebooksFirst := sortNotebooksFirst;
                           useCLocaleSorting := useCLocale |} a b).
Proof.
  split; [|done].
  unfold Earlier.sortItems, Earlier.compare, Earlier.compareByName, Earlier.getPriority.
  unfold sortItems, comparator, key_compare, compareByName, getPriority. simpl.
  destruct (String.eqb (key state) "last_modified"); [done|].
  by destruct (String.eqb (key state) "file_size").
Qed.

(** X14. On a listing with items the [sort] of the earlier revision
    leaves the listing as the current patched [sort] leaves it.  The two
    differ elsewhere: with an empty model the earlier revision shows
    nothing and does not call the host's [sort], and without a model it
    does nothing, where the current revision calls the host's [sort]. *)
Theorem earlier_sort_leaves_the_same_listing `{Host} (cfg : Settings) (state : SortState)
    (p : Patched) :
  (∀ items, model (listing p) = Some items → items ≠ [] →
     EarlierPatch.sort cfg state (listing p) = listing (patched_sort cfg state p)) ∧
  (model (listing p) = Some [] →
     EarlierPatch.sort cfg state (listing p) =
       update (set_sortState state (set_sortedItems [] (listing p))) ∧
     listing (patched_sort cfg state p) =
       originalSort state (set_sortedItems [] (set_sortState state (listing p)))) ∧
  (model (listing p) = None →
     EarlierPatch.sort cfg state (listing p) = listing p ∧
     listing (patched_sort cfg state p) = originalSort state (listing p)).
Proof.
  split; [|split].
  - intros items Hm Hne. rewrite (patched_sort_items cfg state p items Hm Hne).
    unfold EarlierPatch.sort. rewrite Hm. simpl.
    by rewrite sortItems_earlier_settings.
  - intros Hm. unfold EarlierPatch.sort, patched_sort. rewrite Hm. simpl.
    by rewrite sortItems_earlier_settings.
  - intros Hm. unfold EarlierPatch.sort, patched_sort. by rewrite Hm.
Qed.

(** X15. In the earlier revision both settings handlers sort the browsers
    again: after a change of [sortNotebooksFirst] or of
    [useCLocaleSorting], a listing with a sort state and a model holds
    what [sortItems] returns under the new settings.  Its toggle command
    changes nothing when there is no setting registry. *)
Theorem earlier_handlers_resort_every_browser `{Host} (composite : option bool)
    (w : EarlierPatch.World) :
  EarlierPatch.settings (EarlierPatch.updateSortNotebooksFirst composite w) =
    {| sortNotebooksFirst := default false composite;
       useCLocaleSorting := useCLocaleSorting (EarlierPatch.settings w) |} ∧
  EarlierPatch.settings (EarlierPatch.updateUseCLocaleSorting composite w) =
    {| sortNotebooksFirst := sortNotebooksFirst (EarlierPatch.settings w);
       useCLocaleSorting := default true composite |} ∧
  (∀ i l state items,
     EarlierPatch.patchedBrowsers w !! i = Some (Some l) →
     sortState l = Some state → model l = Some items →
     (∃ l', EarlierPatch.patchedBrowsers
              (EarlierPatch.updateSortNotebooksFirst composite w) !! i = Some (Some l') ∧
            _sortedItems l' =
              sortItems (EarlierPatch.settings
                           (EarlierPatch.updateSortNotebooksFirst composite w)) items state) ∧
     (∃ l', EarlierPatch.patchedBrowsers
              (EarlierPatch.updateUseCLocaleSorting composite w) !! i = Some (Some l') ∧
            _sortedItems l' =
              sortItems (EarlierPatch.settings
                           (EarlierPatch.updateUseCLocaleSorting composite w)) items state)) ∧
  EarlierPatch.execute false w = w ∧
  EarlierPatch.execute true w =
    EarlierPatch.updateUseCLocaleSorting
      (Some (negb (useCLocaleSorting (EarlierPatch.settings w)))) w.
Proof.
  split; [done|]. split; [done|]. split; [|done].
  intros i l state items Hi Hst Hm. split.
  - destruct (earlier_resort_lookup
      {| EarlierPatch.settings :=
           {| sortNotebooksFirst := default false composite;
              useCLocaleSorting := useCLocaleSorting (EarlierPatch.settings w) |};
         EarlierPatch.patchedBrowsers := EarlierPatch.patchedBrowsers w |}
      i l state items Hi Hst Hm) as (l' & Hl' & Hs & _).
    by exists l'.
  - destruct (earlier_resort_lookup
      {| EarlierPatch.settings :=
           {| sortNotebooksFirst := sortNotebooksFirst (EarlierPatch.settings w);
              useCLocaleSorting := default true composite |};
         EarlierPatch.patchedBrowsers := EarlierPatch.patchedBrowsers w |}
      i l state items Hi Hst Hm) as (l' & Hl' & Hs & _).
    by exists l'.
Qed.

(** ** What [sortItems] reads *)

Section ArraySortFmap.
Context {A B : Type} (f : A → B).
Context (comparefn : A → A → number) (comparefn' : B → B → number).
Hypothesis agree : ∀ a b, SortCompare comparefn' (f a) (f b) = SortCompare comparefn a b.

Lemma merge_runs_fmap (l r : list A) :
  merge_runs comparefn' (f <$> l) (f <$> r) = f <$> merge_runs comparefn l r.
Proof.
  revert r. induction l as [|x l IHl]; intros r; [done|].
  induction r as [|y r IHr]; [done|].
  rewrite merge_runs_cons. rewrite !fmap_cons, merge_runs_cons, agree.
  destruct (SortCompare comparefn y x <? 0).
  - rewrite fmap_cons. f_equal. exact IHr.
  - rewrite fmap_cons. f_equal. rewrite <- IHl. done.
Qed.

Lemma merge_pairs_fmap (runs : list (list A)) :
  merge_pairs comparefn' ((λ run : list A, f <$> run) <$> runs) =
  (λ run : list A, f <$> run) <$> merge_pairs comparefn runs.
Proof.
  induction runs as [|a|a b rest IH] using pairs_ind; [done..|].
  rewrite !fmap_cons. cbn [merge_pairs]. by rewrite fmap_cons, merge_runs_fmap, IH.
Qed.

Lemma iter_pairs_fmap (n : nat) (runs : list (list A)) :
  Nat.iter n (merge_pairs comparefn') ((λ run : list A, f <$> run) <$> runs) =
  (λ run : list A, f <$> run) <$> Nat.iter n (merge_pairs comparefn) runs.
Proof.
  induction n as [|n IH]; [done|]. by rewrite !Nat.iter_succ, IH, merge_pairs_fmap.
Qed.

Lemma concat_fmap_fmap (runs : list (list A)) :
  concat ((λ run : list A, f <$> run) <$> runs) = f <$> concat runs.
Proof.
  induction runs as [|a runs IH]; [done|].
  rewrite fmap_cons. cbn [concat]. by rewrite fmap_app, IH.
Qed.

Lemma singletons_fmap (l : list A) :
  (λ x, [x]) <$> (f <$> l) = (λ run : list A, f <$> run) <$> ((λ x, [x]) <$> l).
Proof. induction l as [|x l IH]; [done|]. rewrite !fmap_cons. by rewrite IH. Qed.

Lemma Array_sort_fmap (l : list A) :
  Array_sort comparefn' (f <$> l) = f <$> Array_sort comparefn l.
Proof.
  unfold Array_sort. rewrite length_fmap, singletons_fmap.
  by rewrite iter_pairs_fmap, concat_fmap_fmap.
Qed.

End ArraySortFmap.

(** X16. [sortItems] reads the type of an entry only to find its tier:
    when the entries are changed in a way that keeps their names,
    timestamps, sizes and tiers, the output changes in the same way and
    the order is the same.  With [sortNotebooksFirst] off, notebooks are
    therefore ordered among the files as if they were files. *)
Theorem type_matters_only_through_the_tier `{Host} (cfg : Settings) (state : SortState)
    (f : IModel → IModel) (items : list IModel) :
  (∀ e, name (f e) = name e ∧ last_modified (f e) = last_modified e ∧
        size (f e) = size e ∧ getPriority cfg (f e) = getPriority cfg e) →
  sortItems cfg (f <$> items) state = f <$> sortItems cfg items state.
Proof.
  intros Hf. unfold sortItems. apply Array_sort_fmap.
  intros a b. unfold SortCompare. f_equal.
  destruct (Hf a) as (Hna & Hta & Hsa & Hpa), (Hf b) as (Hnb & Htb & Hsb & Hpb).
  unfold comparator, key_compare, compareByName.
  by rewrite Hna, Hta, Hsa, Hpa, Hnb, Htb, Hsb, Hpb.
Qed.

Lemma type_matters_only_through_the_tier_witness :
  (∀ e, name (as_file e) = name e ∧ last_modified (as_file e) = last_modified e ∧
        size (as_file e) = size e ∧
        getPriority default_settings (as_file e) = getPriority default_settings e) ∧
  sortItems (H := example_host) default_settings (as_file <$> mixed_listing) by_date =
  as_file <$> sortItems (H := example_host) default_settings mixed_listing by_date.
Proof.
  assert (Hf : ∀ e, name (as_file e) = name e ∧ last_modified (as_file e) = last_modified e ∧
        size (as_file e) = size e ∧
        getPriority default_settings (as_file e) = getPriority default_settings e).
  { intros e. do 3 (split; [reflexivity|]). unfold getPriority, as_file. simpl.
    destruct (String.eqb (type e) "directory"); reflexivity. }
  split; [exact Hf|].
  exact (type_matters_only_through_the_tier (H := example_host) default_settings by_date
           as_file mixed_listing Hf).
Defined.

(** ** The comparator on every input *)

(** X17. The comparator is antisymmetric on every pair of entries,
    unparsed timestamps included (a [NaN] is read as 0 in both orders), as
    soon as the collation is: swapping the arguments changes the sign of
    what [sort] reads. *)
Theorem comparator_is_antisymmetric `{Host} (cfg : Settings) (state : SortState) :
  (key state ≠ "last_modified"%string → key state ≠ "file_size"%string →
   useCLocaleSorting cfg = false →
   ∀ a b, Z.sgn (localeCompare b a) = - Z.sgn (localeCompare a b)) →
  ∀ a b, Z.sgn (SortCompare (comparator cfg state) b a) =
         - Z.sgn (SortCompare (comparator cfg state) a b).
Proof.
  intros Hlc a b. unfold SortCompare, comparator.
  destruct (Z.eqb_spec (getPriority cfg a) (getPriority cfg b)) as [Heq|Hne].
  - rewrite Heq, Z.eqb_refl. simpl.
    pose proof (reverse_unit state) as Hrev.
    unfold key_compare, compareByName, defaultLocaleCompare.
    destruct (String.eqb_spec (key state) "last_modified") as [Hk|Hk].
    + destruct (Date_getTime (last_modified a)), (Date_getTime (last_modified b));
        simpl; [|done..]. destruct Hrev as [-> | ->]; lia.
    + destruct (String.eqb_spec (key state) "file_size") as [Hk'|Hk'].
      * simpl. destruct Hrev as [-> | ->]; lia.
      * destruct (useCLocaleSorting cfg) eqn:Hc.
        -- rewrite !cLocaleCompare_units, (compare_units_antisym (name a) (name b)). simpl.
           destruct Hrev as [-> | ->]; lia.
        -- simpl. specialize (Hlc Hk Hk' eq_refl (name a) (name b)).
           destruct Hrev as [-> | ->]; lia.
  - destruct (Z.eqb_spec (getPriority cfg b) (getPriority cfg a)); [congruence|]. simpl. lia.
Qed.

Lemma comparator_is_antisymmetric_witness :
  (∀ a b, Z.sgn (folded_compare b a) = - Z.sgn (folded_compare a b)) ∧
  ∀ a b, Z.sgn (SortCompare (comparator (H := example_host) notebooks_first by_name) b a) =
         - Z.sgn (SortCompare (comparator (H := example_host) notebooks_first by_name) a b).
Proof.
  assert (Hlc : ∀ a b, Z.sgn (folded_compare b a) = - Z.sgn (folded_compare a b)).
  { intros a b. by apply (consistent_antisym _ _ folded_compare_consistent). }
  split; [exact Hlc|].
  exact (comparator_is_antisymmetric (H := example_host) notebooks_first by_name
           (λ _ _ _, Hlc)).
Defined.

(** X18. Sorting by size, and sorting by name in byte-order mode, need no
    assumption: for every input, whatever the host's dates and collation,
    the output is in order, entries that compare equal keep their
    relative order, and sorting the output again returns it unchanged. *)
Theorem size_and_byte_order_sorts_are_always_consistent `{Host} (cfg : Settings)
    (state : SortState) (items : list IModel) :
  key state ≠ "last_modified"%string →
  key state = "file_size"%string ∨ useCLocaleSorting cfg = true →
  sorted_by (comparator cfg state) (sortItems cfg items state) ∧
  stable_on cfg state items ∧
  idempotent_on cfg state items.
Proof.
  intros Hk Hmode.
  assert (Hlc : String.eqb (key state) "last_modified" = false →
                String.eqb (key state) "file_size" = false →
                useCLocaleSorting cfg = false → consistent_collator localeCompare).
  { intros _ Hk' Hc. exfalso. destruct Hmode as [Hs|Hc'].
    - rewrite Hs in Hk'. discriminate.
    - congruence. }
  assert (Hall : ∀ l : list IModel, Forall (dated state) l).
  { intros l. apply Forall_forall. intros e _. by apply dated_other_key. }
  pose proof (comparator_consistent cfg state Hlc) as Hcons.
  assert (Hsorted : sorted_by (comparator cfg state) (sortItems cfg items state)).
  { by apply sortItems_sorted. }
  split; [exact Hsorted|]. split.
  - intros a b Ha Hb Hab. unfold same_relative_order.
    assert (Da : dated state a) by by apply dated_other_key.
    pose proof (Array_sort_class (comparator cfg state) (dated state) Hcons a items Da
                  (Hall items)) as Hclass.
    fold (sortItems cfg items state) in Hclass.
    assert (Hin : ∀ x, x = a ∨ x = b → SortCompare (comparator cfg state) a x = 0).
    { intros x [-> | ->].
      - by eapply cmp_refl.
      - unfold SortCompare. by rewrite Hab. }
    rewrite <- (filter_within _ _ (sortItems cfg items state) Hin).
    rewrite <- (filter_within _ _ items Hin).
    by rewrite Hclass.
  - unfold idempotent_on. unfold sortItems at 1.
    by apply (Array_sort_fixed (comparator cfg state) (dated state) Hcons).
Qed.

Lemma size_and_byte_order_sorts_are_always_consistent_witness :
  key by_size ≠ "last_modified"%string ∧
  (key by_size = "file_size"%string ∨ useCLocaleSorting notebooks_first = true) ∧
  sorted_by (comparator (H := example_host) notebooks_first by_size)
    (sortItems (H := example_host) notebooks_first partly_dated by_size) ∧
  stable_on (H := example_host) notebooks_first by_size partly_dated ∧
  idempotent_on (H := example_host) notebooks_first by_size partly_dated.
Proof.
  assert (Hk : key by_size ≠ "last_modified"%string) by discriminate.
  assert (Hm : key by_size = "file_size"%string ∨ useCLocaleSorting notebooks_first = true)
    by (left; reflexivity).
  split; [exact Hk|]. split; [exact Hm|].
  exact (size_and_byte_order_sorts_are_always_consistent (H := example_host)
           notebooks_first by_size partly_dated Hk Hm).
Defined.

(** ** The shape of the output *)

Lemma StronglySorted_among {A : Type} (R : A → A → Prop) (P : A → Prop) (l : list A) :
  StronglySorted R l → Forall P l → StronglySorted (λ a b, R a b ∧ P a ∧ P b) l.
Proof.
  induction 1 as [|x l Hs IH Hx]; intros Hl; [constructor|].
  apply Forall_cons in Hl as [Px Hl]. constructor; [by apply IH|].
  rewrite Forall_forall in Hx, Hl. apply Forall_forall. intros y Hy. auto.
Qed.

Section Shape.
Context `{Host}.

Lemma tiers_partition (cfg : Settings) (items : list IModel) :
  filter (λ e, getPriority cfg e = 0) items ++
  filter (λ e, getPriority cfg e = 1) items ++
  filter (λ e, getPriority cfg e = 2) items ≡ₚ items.
Proof.
  induction items as [|e items IH]; [done|].
  pose proof (getPriority_range cfg e) as Hr.
  rewrite !filter_cons.
  destruct (decide (getPriority cfg e = 0)), (decide (getPriority cfg e = 1)),
    (decide (getPriority cfg e = 2)); try lia.
  - simpl. by rewrite IH.
  - rewrite <- app_comm_cons, <- Permutation_middle. by rewrite IH.
  - rewrite app_assoc, <- Permutation_middle, <- app_assoc. by rewrite IH.
Qed.

Lemma comparator_tie_same_tier (cfg : Settings) (state : SortState) (x y : IModel) :
  SortCompare (comparator cfg state) x y = 0 → getPriority cfg y = getPriority cfg x.
Proof.
  intros Hxy. destruct (decide (getPriority cfg x = getPriority cfg y)) as [|Hne]; [done|].
  unfold SortCompare in Hxy. rewrite comparator_other_tier in Hxy by done. lia.
Qed.

Lemma elem_of_sorted_tier (cfg : Settings) (state : SortState) (items : list IModel)
    (t : Z) (e : IModel) :
  e ∈ sortItems cfg (filter (λ e, getPriority cfg e = t) items) state →
  getPriority cfg e = t ∧ e ∈ items.
Proof. rewrite sortItems_perm. by intros ?%list_elem_of_filter. Qed.

End Shape.

(** X19. When the application is restored, a tracked listing that has a
    sort state and items shows the custom order at once: it carries the
    patch, its [sortedItems] getter and [_sortedItems] hold what
    [sortItems] returns for its items under the current settings, and
    [sortItems] has been called once for it. *)
Theorem restored_listing_is_sorted_at_once `{Host} (cfg : Settings)
    (tracker : list (option ref)) (σ : gmap ref Plugin.ListingObject)
    (r : ref) (l : DirListing) (state : SortState) (items : list IModel) :
  Some r ∈ tracker → σ !! r = Some (Plugin.Unpatched l) →
  sortState l = Some state → model l = Some items → items ≠ [] →
  ∃ p, Plugin.restored cfg tracker σ !! r = Some (Plugin.WithPatch p) ∧
       sortedItems p = sortItems cfg items state ∧
       _sortedItems (listing p) = sortItems cfg items state ∧
       sortState (listing p) = Some state ∧
       engine_calls p = [(items, state)].
Proof.
  intros Hin Hr Hst Hm Hne. exists (patchListing cfg l). split.
  - rewrite restored_lookup, Hr. by rewrite decide_True.
  - unfold patchListing. rewrite Hst.
    by rewrite (patched_sort_items cfg state
                  {| listing := l; customSortedItems := []; engine_calls := [] |}
                  items Hm Hne).
Qed.

Lemma restored_listing_is_sorted_at_once_witness :
  Some 1%positive ∈ [Some 1%positive; None; Some 2%positive] ∧
  three_listings !! 1%positive = Some (Plugin.Unpatched host_sorted_listing) ∧
  sortState host_sorted_listing = Some by_name ∧
  model host_sorted_listing = Some mixed_listing ∧
  mixed_listing ≠ [] ∧
  ∃ p, Plugin.restored (H := example_host) notebooks_first
         [Some 1%positive; None; Some 2%positive] three_listings !! 1%positive
       = Some (Plugin.WithPatch p) ∧
       sortedItems p = sortItems (H := example_host) notebooks_first mixed_listing by_name ∧
       _sortedItems (listing p) =
         sortItems (H := example_host) notebooks_first mixed_listing by_name ∧
       sortState (listing p) = Some by_name ∧
       engine_calls p = [(mixed_listing, by_name)].
Proof.
  assert (Hin : Some 1%positive ∈ [Some 1%positive; None; Some 2%positive]) by by left.
  assert (Hr : three_listings !! 1%positive = Some (Plugin.Unpatched host_sorted_listing))
    by reflexivity.
  assert (Hne : mixed_listing ≠ []) by discriminate.
  split; [exact Hin|]. split; [exact Hr|]. split; [reflexivity|].
  split; [reflexivity|]. split; [exact Hne|].
  exact (restored_listing_is_sorted_at_once (H := example_host) notebooks_first
           [Some 1%positive; None; Some 2%positive] three_listings 1%positive
           host_sorted_listing by_name mixed_listing Hin Hr eq_refl eq_refl Hne).
Defined.

(** X20. When no two different entries of the input tie under the
    comparator, the output does not depend on the order of the input:
    every rearrangement of the entries sorts to the same array
    (timestamps parse; the collation is consistent in locale mode). *)
Theorem output_independent_of_input_order `{Host} (cfg : Settings) (state : SortState)
    (items items' : list IModel) :
  (useCLocaleSorting cfg = false → consistent_collator localeCompare) →
  Forall (dated state) items →
  (∀ a b, a ∈ items → b ∈ items → comparator cfg state a b = Num 0 → a = b) →
  items' ≡ₚ items →
  sortItems cfg items' state = sortItems cfg items state.
Proof.
  intros Hlc Hd Hties Hp.
  assert (Hd' : Forall (dated state) items') by by rewrite Hp.
  assert (Hcons : consistent_on (dated state) (SortCompare (comparator cfg state))).
  { apply comparator_consistent. auto. }
  set (R := λ a b : IModel, SortCompare (comparator cfg state) a b <= 0 ∧
                            (a ∈ items) ∧ (b ∈ items)).
  assert (Hanti : AntiSymm (=) R).
  { intros a b (Hab & Ha & Hb) (Hba & _ & _).
    assert (Da : dated state a) by (by eapply Forall_forall in Hd).
    assert (Db : dated state b) by (by eapply Forall_forall in Hd).
    apply Hties; [done..|]. rewrite comparator_dated by done. f_equal.
    pose proof (consistent_antisym _ _ Hcons a b Da Db). lia. }
  apply (@StronglySorted_unique _ R Hanti).
  - apply StronglySorted_among; [apply sortItems_sorted; auto|].
    apply Forall_forall. intros e. by rewrite sortItems_perm, Hp.
  - apply StronglySorted_among; [apply sortItems_sorted; auto|].
    apply Forall_forall. intros e. by rewrite sortItems_perm.
  - by rewrite !sortItems_perm.
Qed.

Lemma output_independent_of_input_order_witness :
  Forall (dated (H := example_host) by_name) ten_files ∧
  (∀ a b, a ∈ ten_files → b ∈ ten_files →
     comparator (H := example_host) default_settings by_name a b = Num 0 → a = b) ∧
  rev ten_files ≡ₚ ten_files ∧
  sortItems (H := example_host) default_settings (rev ten_files) by_name =
  sortItems (H := example_host) default_settings ten_files by_name.
Proof.
  assert (Hd : Forall (dated (H := example_host) by_name) ten_files).
  { apply Forall_forall. intros e _ Hk. discriminate Hk. }
  assert (Hties : ∀ a b, a ∈ ten_files → b ∈ ten_files →
     comparator (H := example_host) default_settings by_name a b = Num 0 → a = b).
  { intros a b Ha Hb.
    let l := eval vm_compute in ten_files in change ten_files with l in Ha, Hb.
    repeat (apply elem_of_cons in Ha as [->|Ha]); [..|by apply elem_of_nil in Ha];
      repeat (apply elem_of_cons in Hb as [->|Hb]); try (by apply elem_of_nil in Hb);
      vm_compute; intros Heq; first [reflexivity | discriminate Heq]. }
  assert (Hp : rev ten_files ≡ₚ ten_files) by (symmetry; apply Permutation_rev).
  assert (Hlc : useCLocaleSorting default_settings = false →
                consistent_collator folded_compare) by (intros _; exact folded_compare_consistent).
  split; [exact Hd|]. split; [exact Hties|]. split; [exact Hp|].
  exact (output_independent_of_input_order (H := example_host) default_settings by_name
           ten_files (rev ten_files) Hlc Hd Hties Hp).
Defined.

(** X21. [sortItems] sorts each tier by itself: the output is the sorted
    directories, followed by the sorted entries of the notebook tier,
    followed by the sorted rest (timestamps parse; the collation is
    consistent in locale mode). *)
Theorem sortItems_sorts_each_tier_by_itself `{Host} (cfg : Settings) (state : SortState)
    (items : list IModel) :
  (useCLocaleSorting cfg = false → consistent_collator localeCompare) →
  Forall (dated state) items →
  sortItems cfg items state =
  sortItems cfg (filter (λ e, getPriority cfg e = 0) items) state ++
  sortItems cfg (filter (λ e, getPriority cfg e = 1) items) state ++
  sortItems cfg (filter (λ e, getPriority cfg e = 2) items) state.
Proof.
  intros Hlc Hd.
  assert (Hcons : consistent_on (dated state) (SortCompare (comparator cfg state))).
  { apply comparator_consistent. auto. }
  assert (Hdt : ∀ t, Forall (dated state) (filter (λ e, getPriority cfg e = t) items)).
  { intros t. apply Forall_forall. intros e [_ He]%list_elem_of_filter.
    by eapply Forall_forall in Hd. }
  assert (Hst : ∀ t, sorted_by (comparator cfg state)
                   (sortItems cfg (filter (λ e, getPriority cfg e = t) items) state)).
  { intros t. apply sortItems_sorted; auto. }
  assert (Hcross : ∀ t t' x y, t < t' →
     x ∈ sortItems cfg (filter (λ e, getPriority cfg e = t) items) state →
     y ∈ sortItems cfg (filter (λ e, getPriority cfg e = t') items) state →
     SortCompare (comparator cfg state) x y <= 0).
  { intros t t' x y Hlt [Hx _]%elem_of_sorted_tier [Hy _]%elem_of_sorted_tier.
    destruct (comparator_rank cfg state x y) as [Hxy _]; lia. }
  symmetry.
  apply (conforming_sort_unique (comparator cfg state) (dated state) Hcons).
  - rewrite !Forall_app. repeat split; by rewrite sortItems_perm.
  - by rewrite !sortItems_perm, tiers_partition.
  - apply StronglySorted_app_2; [|apply Hst|].
    + intros x y Hx [Hy|Hy]%elem_of_app; by eapply Hcross; [|exact Hx|exact Hy].
    + apply StronglySorted_app_2; [|apply Hst..].
      intros x y Hx Hy. by eapply Hcross; [|exact Hx|exact Hy].
  - apply sortItems_sorted; auto.
  - intros x Dx.
    assert (Hpart : ∀ t,
      filter (λ y, SortCompare (comparator cfg state) x y = 0)
        (sortItems cfg (filter (λ e, getPriority cfg e = t) items) state) =
      if decide (getPriority cfg x = t)
      then filter (λ y, SortCompare (comparator cfg state) x y = 0) items
      else []).
    { intros t. unfold sortItems.
      rewrite (Array_sort_class (comparator cfg state) (dated state) Hcons x _ Dx (Hdt t)).
      destruct (decide (getPriority cfg x = t)) as [Ht|Ht].
      - apply filter_within. intros y Hy. rewrite <- Ht.
        by eapply comparator_tie_same_tier.
      - apply filter_none. apply Forall_forall.
        intros y [Hy _]%list_elem_of_filter Hxy.
        apply comparator_tie_same_tier in Hxy. congruence. }
    rewrite !filter_app, !Hpart.
    unfold sortItems at 1.
    rewrite (Array_sort_class (comparator cfg state) (dated state) Hcons x _ Dx Hd).
    pose proof (getPriority_range cfg x) as Hr.
    destruct (decide (getPriority cfg x = 0)) as [H0|H0].
    + rewrite !decide_False by lia. by rewrite !app_nil_r.
    + destruct (decide (getPriority cfg x = 1)) as [H1|H1].
      * rewrite decide_False by lia. by rewrite app_nil_r.
      * rewrite decide_True by lia. done.
Qed.

Lemma sortItems_sorts_each_tier_by_itself_witness :
  Forall (dated (H := example_host) by_date) mixed_listing ∧
  sortItems (H := example_host) notebooks_first mixed_listing by_date =
  sortItems (H := example_host) notebooks_first
    (filter (λ e, getPriority notebooks_first e = 0) mixed_listing) by_date ++
  sortItems (H := example_host) notebooks_first
    (filter (λ e, getPriority notebooks_first e = 1) mixed_listing) by_date ++
  sortItems (H := example_host) notebooks_first
    (filter (λ e, getPriority notebooks_first e = 2) mixed_listing) by_date.
Proof.
  assert (Hd : Forall (dated (H := example_host) by_date) mixed_listing).
  { unfold mixed_listing. repeat (apply Forall_cons; split; [by intros _|]). by apply Forall_nil. }
  split; [exact Hd|].
  exact (sortItems_sorts_each_tier_by_itself (H := example_host) notebooks_first by_date
           mixed_listing (λ _, folded_compare_consistent) Hd).
Defined.

(** * Sample runs *)

(** What [sortItems] returns for the sample listing under the three keys:
    the directory, the notebooks, then the files; the two files tie under
    each key and keep the order of the input. *)
Example mixed_by_name :
  name <$> sortItems (H := example_host) notebooks_first mixed_listing by_name =
  str <$> ["src"; "a.ipynb"; "b.ipynb"; "notes.txt"; "Notes.txt"]%string.
Proof. by vm_compute. Qed.

Example mixed_by_size :
  name <$> sortItems (H := example_host) notebooks_first mixed_listing by_size =
  str <$> ["src"; "b.ipynb"; "a.ipynb"; "notes.txt"; "Notes.txt"]%string.
Proof. by vm_compute. Qed.

Example mixed_by_date_descending :
  name <$> sortItems (H := example_host) notebooks_first mixed_listing
    {| direction := descending; key := "last_modified" |} =
  str <$> ["src"; "a.ipynb"; "b.ipynb"; "notes.txt"; "Notes.txt"]%string.
Proof. by vm_compute. Qed.

(** In byte order the capital sorts first. *)
Example mixed_by_name_c_locale :
  name <$> sortItems (H := example_host) default_settings mixed_listing by_name =
  str <$> ["src"; "Notes.txt"; "a.ipynb"; "b.ipynb"; "notes.txt"]%string.
Proof. by vm_compute. Qed.

(** The nine entries of [nine_files_two_undated], sorted once and twice. *)
Example two_undated_once :
  name <$> sortItems (H := example_host) default_settings nine_files_two_undated by_date =
  str <$> ["a"; "b"; "c"; "e"; "i"; "d"; "f"; "g"; "h"]%string.
Proof. by vm_compute. Qed.

Example two_undated_twice :
  name <$> sortItems (H := example_host) default_settings
    (sortItems (H := example_host) default_settings nine_files_two_undated by_date) by_date =
  str <$> ["a"; "b"; "c"; "e"; "h"; "i"; "d"; "f"; "g"]%string.
Proof. by vm_compute. Qed.

(** Binary insertion without run detection returns the same two arrays. *)
Example two_undated_insertion :
  Array_sort_insertion (comparator (H := example_host) default_settings by_date)
    nine_files_two_undated =
  sortItems (H := example_host) default_settings nine_files_two_undated by_date ∧
  Array_sort_insertion (comparator (H := example_host) default_settings by_date)
    (Array_sort_insertion (comparator (H := example_host) default_settings by_date)
       nine_files_two_undated) =
  sortItems (H := example_host) default_settings
    (sortItems (H := example_host) default_settings nine_files_two_undated by_date) by_date.
Proof. by vm_compute. Qed.

(** With run detection the first array is the same, and sorting it again
    leaves it as it is: the whole array is one ascending run. *)
Example two_undated_binary_insertion :
  Array_sort_binary_insertion (comparator (H := example_host) default_settings by_date)
    nine_files_two_undated =
  sortItems (H := example_host) default_settings nine_files_two_undated by_date ∧
  Array_sort_binary_insertion (comparator (H := example_host) default_settings by_date)
    (sortItems (H := example_host) default_settings nine_files_two_undated by_date) =
  sortItems (H := example_host) default_settings nine_files_two_undated by_date.
Proof. by vm_compute. Qed.

(** On the five entries of [partly_dated] the three engines return three
    different arrays: what an engine does with a comparator that is not
    consistent is its own affair. *)
Example partly_dated_three_engines :
  name <$> sortItems (H := example_host) default_settings partly_dated by_date =
  str <$> ["a"; "e"; "b"; "c"; "d"]%string ∧
  name <$> Array_sort_insertion (comparator (H := example_host) default_settings by_date)
    partly_dated =
  str <$> ["a"; "d"; "e"; "b"; "c"]%string ∧
  Array_sort_binary_insertion (comparator (H := example_host) default_settings by_date)
    partly_dated = partly_dated.
Proof. by vm_compute. Qed.

(** On [nine_files] the three engines return the same array, in which [i]
    has moved before [g] and [h]. *)
Example nine_files_merge :
  name <$> sortItems (H := example_host) default_settings nine_files by_date =
  str <$> ["a"; "b"; "c"; "e"; "i"; "d"; "f"; "g"; "h"]%string.
Proof. by vm_compute. Qed.

Example nine_files_binary_insertion :
  name <$> Array_sort_binary_insertion
    (comparator (H := example_host) default_settings by_date) nine_files =
  str <$> ["a"; "b"; "c"; "e"; "i"; "d"; "f"; "g"; "h"]%string.
Proof. by vm_compute. Qed.

Example nine_files_insertion :
  name <$> Array_sort_insertion
    (comparator (H := example_host) default_settings by_date) nine_files =
  str <$> ["a"; "b"; "c"; "e"; "i"; "d"; "f"; "g"; "h"]%string.
Proof. by vm_compute. Qed.

(** On the sample listing, whose timestamps parse, they agree as they must. *)
Example mixed_binary_insertion :
  Array_sort_binary_insertion
    (comparator (H := example_host) notebooks_first by_date) mixed_listing =
  sortItems (H := example_host) notebooks_first mixed_listing by_date.
Proof. by vm_compute. Qed.

(** A refresh of the emptied listing: nothing is shown, [sortItems] is not
    called again, and the listing's own [sort] has run. *)
Example emptied_listing_refreshed :
  on_refreshed (H := example_host) default_settings emptied_listing =
  {| listing := {| model := Some []; _sortState := Some by_name;
                   _sortedItems := []; updates := 4 |};
     customSortedItems := [];
     engine_calls := [(mixed_listing, by_name)] |}.
Proof. reflexivity. Qed.

(** Switching "notebooks first" on leaves what the browsers show (the
    first shows [mixed_listing] by name, the second has not been sorted);
    the next refresh puts the notebooks of the first before its files. *)
Example notebooks_flag_shown_order :
  (λ p, name <$> sortedItems p) <$>
    browsers (on_sortNotebooksFirst_changed (Some true) two_browsers) =
  [str <$> ["src"; "Notes.txt"; "a.ipynb"; "b.ipynb"; "notes.txt"]%string; []] ∧
  (λ p, name <$> sortedItems
          (on_refreshed (H := example_host)
             {| sortNotebooksFirst := true; useCLocaleSorting := true |} p)) <$>
    browsers (on_sortNotebooksFirst_changed (Some true) two_browsers) =
  [str <$> ["src"; "a.ipynb"; "b.ipynb"; "Notes.txt"; "notes.txt"]%string; []].
Proof. by vm_compute. Qed.

(** The toggle command sorts the first browser again, in locale mode. *)
Example toggle_shown_order :
  (λ p, name <$> sortedItems p) <$>
    browsers (execute_toggle (H := example_host) false two_browsers) =
  [str <$> ["src"; "a.ipynb"; "b.ipynb"; "notes.txt"; "Notes.txt"]%string; []].
Proof. by vm_compute. Qed.

(** Three listings, two of them tracked (one by two browsers), restored:
    the tracked ones carry the patch, the third does not. *)
Example three_listings_restored :
  Plugin.has_patch <$>
    Plugin.restored (H := example_host) default_settings
      [Some 1%positive; None; Some 2%positive; Some 1%positive] three_listings
  = {[ 1%positive := true; 2%positive := true; 3%positive := false ]}.
Proof. by vm_compute. Qed.

(** With an unparsed timestamp the comparator is not transitive: [d] and
    [f] tie, [f] and [g] tie, and [d] compares above [g]. *)
Example unparsed_date_ties :
  SortCompare (comparator (H := example_host) default_settings by_date) (late "d") (undated "f") = 0 ∧
  SortCompare (comparator (H := example_host) default_settings by_date) (undated "f") (early "g") = 0 ∧
  SortCompare (comparator (H := example_host) default_settings by_date) (late "d") (early "g") = 1.
Proof. by vm_compute. Qed.

(** The earlier revision sorts both browsers' listings when "notebooks
    first" is switched on; the second listing has no sort state. *)
Example earlier_notebooks_flag :
  (λ b : option DirListing, (λ l : DirListing, name <$> _sortedItems l) <$> b) <$>
    EarlierPatch.patchedBrowsers
      (EarlierPatch.updateSortNotebooksFirst (H := example_host) (Some true) earlier_world) =
  [Some (str <$> ["src"; "a.ipynb"; "b.ipynb"; "Notes.txt"; "notes.txt"]%string : list jsstring);
   Some []].
Proof. by vm_compute. Qed.
